(** * State estimation notebooks: Kalman filter and particle filter

    A shallow embedding of the algorithmic cells of
    [state_estimation/solution/01-kalman-filter/kalman-filter.ipynb]
    (functions [predict] and [update]) and of the particle-filter
    notebook (class [Particle] and the resampling part of the main loop),
    followed by the main cells of the two notebooks: the loops that call
    these functions, with the constants of the notebooks as an instance.

    Number model.  The notebooks compute with numpy [float64].  Finite
    values are idealised as elements of an ordered field [F]: no rounding,
    no overflow, no signed zero.  Where the notebooks divide by a value that
    can be zero (particle weights), the IEEE special values are kept
    explicitly ([xfloat] below).  Where rounding decides whether an
    exception is raised ([np.linalg.inv] on a singular matrix), the outcome
    of the float64 computation is a parameter of the model, and the
    concrete instance computes it on binary64 numbers ([Float64] below). *)

From HB Require Import structures.
From mathcomp Require Import boot order algebra.
From mathcomp Require Import lra.
From Stdlib Require PeanoNat.
From Stdlib Require PrimFloat Uint63 FloatOps SpecFloat BinInt BinPos.

Set Implicit Arguments.
Unset Strict Implicit.
Unset Printing Implicit Defensive.

Import GRing.Theory Num.Theory Order.POrderTheory Order.TotalTheory.
Local Open Scope ring_scope.

(** ** Python exceptions and results *)

Inductive exn : Type :=
| LinAlgError   (* numpy.linalg.LinAlgError, raised by np.linalg.inv *)
| ValueError    (* raised by np.random.choice on an invalid p *)
| IndexError.   (* list or array index out of range *)

Inductive result (A : Type) : Type :=
| Ok (a : A)
| Raise (e : exn).

Arguments Ok {A} a.
Arguments Raise {A} e.

(** ** Kalman filter (kalman-filter.ipynb) *)

Module Kalman.
Section Filter.

Variable F : realFieldType.

(** State dimension [n], control dimension [m], measurement dimension [k].
    A 1-D numpy array used as a vector is a column vector; [@] is the
    matrix product, left associative as in Python. *)
Variables n m k : nat.

(** [np.linalg.inv] hands the matrix to LAPACK's [gesv], which factorises
    it (LU with partial pivoting, in float64) and raises [LinAlgError] only
    when the factorisation meets an exactly zero pivot.  On a matrix whose
    determinant is exactly zero the rounding errors of the elimination can
    leave a tiny non-zero pivot; then no error is raised and a matrix of
    huge entries is returned.  [gesv_singular a] is what [gesv] does with
    such a matrix: [None] when a zero pivot is met, [Some b] when [b] is
    returned.  It is consulted on singular matrices only. *)
Variable gesv_singular : 'M[F]_k -> option 'M[F]_k.

(** [np.linalg.inv], at the dimension of the residual covariance. *)
Definition np_linalg_inv (a : 'M[F]_k) : result 'M[F]_k :=
  if a \in unitmx then Ok (invmx a)
  else if gesv_singular a is Some b then Ok b else Raise LinAlgError.

(** def predict(A, B, Q, mu_t, u_t, Sigma_t) *)
Definition predict (A : 'M[F]_n) (B : 'M[F]_(n, m)) (Q : 'M[F]_n)
    (mu_t : 'cV[F]_n) (u_t : 'cV[F]_m) (Sigma_t : 'M[F]_n)
    : 'cV[F]_n * 'M[F]_n :=
  let predicted_mu := A *m mu_t + B *m u_t in
  let predicted_Sigma := A *m Sigma_t *m A^T + Q in
  (predicted_mu, predicted_Sigma).

(** def update(H, R, z, predicted_mu, predicted_Sigma) *)
Definition update (H : 'M[F]_(k, n)) (R : 'M[F]_k) (z : 'cV[F]_k)
    (predicted_mu : 'cV[F]_n) (predicted_Sigma : 'M[F]_n)
    : result ('cV[F]_n * 'M[F]_n) :=
  let residual_mean := z - H *m predicted_mu in
  let residual_covariance := H *m predicted_Sigma *m H^T + R in
  match np_linalg_inv residual_covariance with
  | Raise e => Raise e
  | Ok residual_covariance_inv =>
      let kalman_gain := predicted_Sigma *m H^T *m residual_covariance_inv in
      let updated_mu := predicted_mu + kalman_gain *m residual_mean in
      let updated_Sigma :=
        predicted_Sigma - kalman_gain *m H *m predicted_Sigma in
      Ok (updated_mu, updated_Sigma)
  end.

(** The five steps of the update as the specification words them; the
    inverse of the residual covariance is any two-sided inverse. *)
Definition update_steps (H : 'M[F]_(k, n)) (R : 'M[F]_k) (z : 'cV[F]_k)
    (mean : 'cV[F]_n) (covariance : 'M[F]_n)
    (out : 'cV[F]_n * 'M[F]_n) : Prop :=
  exists (residual_mean : 'cV[F]_k) (residual_covariance rc_inv : 'M[F]_k)
         (gain : 'M[F]_(n, k)),
    [/\ residual_mean = z - H *m mean,
        residual_covariance = H *m (covariance *m H^T) + R,
        rc_inv *m residual_covariance = 1%:M
        /\ residual_covariance *m rc_inv = 1%:M,
        gain = covariance *m (H^T *m rc_inv)
      & out = (mean + gain *m residual_mean,
               covariance - gain *m (H *m covariance))].

End Filter.

Section Covariance.

Variable F : realFieldType.

(** The quadratic form x^T M x of a square matrix. *)
Definition qform (d : nat) (M : 'M[F]_d) (x : 'cV[F]_d) : F :=
  (x^T *m M *m x) 0 0.

Definition symmetric (d : nat) (M : 'M[F]_d) : Prop := M^T = M.

(** Symmetric positive semi-definite: what a covariance matrix is. *)
Definition psd (d : nat) (M : 'M[F]_d) : Prop :=
  symmetric M /\ forall x : 'cV[F]_d, 0 <= qform M x.

(** Loewner order: [M1] is below [M2] when [M2 - M1] is PSD. *)
Definition loewner_le (d : nat) (M1 M2 : 'M[F]_d) : Prop := psd (M2 - M1).

End Covariance.

End Kalman.

(** ** LAPACK on float64: [gesv] on a 2 x 2 matrix *)

Module Float64.

Local Notation float := PrimFloat.float.

(** The binary64 number nearest to a rational whose numerator and
    denominator are below 2^53: both convert exactly and the IEEE division
    rounds to nearest. *)
Definition of_nat (p : nat) : float :=
  PrimFloat.of_uint63 (Uint63.of_Z (BinInt.Z.of_nat p)).

Definition of_int (z : int) : float :=
  match z with
  | Posz p => of_nat p
  | Negz p => PrimFloat.opp (of_nat p.+1)
  end.

Definition of_rat (x : rat) : float :=
  PrimFloat.div (of_int (numq x)) (of_int (denq x)).

(** The rational value of a finite binary64 number (0 for the infinities
    and [nan], which the number model leaves out). *)
Definition int_of_Z (z : BinNums.Z) : int :=
  match z with
  | BinNums.Z0 => 0
  | BinNums.Zpos p => Posz (BinPos.Pos.to_nat p)
  | BinNums.Zneg p => - Posz (BinPos.Pos.to_nat p)
  end.

Definition to_rat (f : float) : rat :=
  match FloatOps.Prim2SF f with
  | SpecFloat.S754_finite s mant e =>
      (if s then - 1 else 1) * (BinPos.Pos.to_nat mant)%:R
      * 2%:R ^ int_of_Z e
  | _ => 0
  end.

(** The safe minimum [dlamch('S')] = 2^-1022. *)
Definition sfmin : float :=
  FloatOps.Z.ldexp PrimFloat.one (BinInt.Z.opp (BinInt.Z.of_nat 1022)).

(** The factors that [dgetrf] leaves for a 2 x 2 matrix: whether the rows
    were interchanged, the rows (u11, u12) and (0, u22) of U and the
    multiplier l21. *)
Record lu : Type := Lu {
  interchanged : bool;
  u11 : float;
  u12 : float;
  l21 : float;
  u22 : float
}.

(** [dgetrf] (reference LAPACK, unblocked) on the entries of a 2 x 2
    matrix: the pivot of the first column is its entry of largest absolute
    value, the first one on a tie; the entry below it is scaled by the
    reciprocal of the pivot (divided by it when the pivot is below
    [sfmin]); the trailing entry is updated by one multiplication and one
    subtraction. *)
Definition dgetrf_entries (a00 a01 a10 a11 : float) : lu :=
  let swap := PrimFloat.ltb (PrimFloat.abs a00) (PrimFloat.abs a10) in
  let p1 := if swap then a10 else a00 in
  let p2 := if swap then a11 else a01 in
  let q1 := if swap then a00 else a10 in
  let q2 := if swap then a01 else a11 in
  let l :=
    if PrimFloat.eqb p1 PrimFloat.zero then q1
    else if PrimFloat.leb sfmin (PrimFloat.abs p1)
         then PrimFloat.mul q1 (PrimFloat.div PrimFloat.one p1)
         else PrimFloat.div q1 p1 in
  Lu swap p1 p2 l (PrimFloat.sub q2 (PrimFloat.mul l p2)).

Definition dgetrf (a : 'M[rat]_2) : lu :=
  dgetrf_entries (of_rat (a 0 0)) (of_rat (a 0 1))
                 (of_rat (a 1 0)) (of_rat (a 1 1)).

(** [info > 0]: a pivot is exactly zero. *)
Definition zero_pivot (f : lu) : bool :=
  PrimFloat.eqb (u11 f) PrimFloat.zero || PrimFloat.eqb (u22 f) PrimFloat.zero.

(** [dgetrs] on the identity: the rows of the identity are interchanged as
    those of the matrix were, then L y = b is solved downwards and U x = y
    upwards.  The result is the row (x1, x2) for the column [c] of the
    right-hand side. *)
Definition dgetrs_column (f : lu) (c : bool) : float * float :=
  let b1 := if interchanged f == c then PrimFloat.one else PrimFloat.zero in
  let b2 := if interchanged f == c then PrimFloat.zero else PrimFloat.one in
  let y2 := PrimFloat.sub b2 (PrimFloat.mul b1 (l21 f)) in
  let x2 := PrimFloat.div y2 (u22 f) in
  let x1 := PrimFloat.div (PrimFloat.sub b1 (PrimFloat.mul x2 (u12 f)))
                          (u11 f) in
  (x1, x2).

Definition dgetrs (f : lu) : 'M[rat]_2 :=
  \matrix_(i, j)
    let x := dgetrs_column f (j != 0) in
    to_rat (if i == 0 then x.1 else x.2).

(** [gesv] on a singular 2 x 2 matrix. *)
Definition gesv_singular (a : 'M[rat]_2) : option 'M[rat]_2 :=
  let f := dgetrf a in
  if zero_pivot f then None else Some (dgetrs f).

End Float64.

(** ** Particle filter (the particle-filter notebook) *)

Module ParticleFilter.

(** *** float64 values with the IEEE special values

    A weight is computed by a division whose divisor can be zero, so the
    results [inf], [-inf] and [nan] of numpy's float division are kept.
    Finite values are exact. *)

Section XFloat.

Variable F : realFieldType.

Inductive xfloat : Type :=
| Fin (x : F)
| PInf
| NInf
| NaN.

Definition is_finite (a : xfloat) : bool :=
  if a is Fin _ then true else false.

(** [a < 0] as numpy evaluates it: false on [nan]. *)
Definition xlt0 (a : xfloat) : bool :=
  match a with
  | Fin x => x < 0
  | NInf => true
  | PInf | NaN => false
  end.

(** [a == 1.0] *)
Definition is_one (a : xfloat) : bool :=
  if a is Fin x then x == 1 else false.

Definition xadd (a b : xfloat) : xfloat :=
  match a, b with
  | NaN, _ | _, NaN => NaN
  | Fin x, Fin y => Fin (x + y)
  | PInf, NInf | NInf, PInf => NaN
  | PInf, _ | _, PInf => PInf
  | NInf, _ | _, NInf => NInf
  end.

(** numpy float division: no exception, a warning at most.
    x / 0 is [inf], [-inf] or [nan] by the sign of x; finite / inf is 0;
    inf / inf is [nan]. *)
Definition xdiv (a b : xfloat) : xfloat :=
  match a, b with
  | NaN, _ | _, NaN => NaN
  | Fin x, Fin y =>
      if y == 0 then
        if x == 0 then NaN else if 0 < x then PInf else NInf
      else Fin (x / y)
  | Fin _, (PInf | NInf) => Fin 0
  | PInf, Fin y => if 0 <= y then PInf else NInf
  | NInf, Fin y => if 0 <= y then NInf else PInf
  | (PInf | NInf), (PInf | NInf) => NaN
  end.

(** [np.sum] of a list of floats. *)
Definition np_sum (ws : seq xfloat) : xfloat := foldr xadd (Fin 0) ws.

End XFloat.

Arguments PInf {F}.
Arguments NInf {F}.
Arguments NaN {F}.

(** *** Python lists and ranges *)

Section PyList.

Variable A : Type.

(** Position addressed by index [i] in a list of length [len]; a negative
    index counts from the end. *)
Definition py_index (len : nat) (i : int) : option nat :=
  match i with
  | Posz p => if (p < len)%N then Some p else None
  | Negz q => if (q < len)%N then Some (len - q.+1)%N else None
  end.

(** [l[i]] *)
Definition py_getitem (x0 : A) (l : seq A) (i : int) : result A :=
  if py_index (size l) i is Some p then Ok (nth x0 l p) else Raise IndexError.

(** [l[i] = x] *)
Definition py_setitem (x0 : A) (l : seq A) (i : int) (x : A)
    : result (seq A) :=
  if py_index (size l) i is Some p then Ok (set_nth x0 l p x)
  else Raise IndexError.

End PyList.

(** [range(n)] *)
Definition py_range (n : int) : seq nat :=
  if n is Posz p then iota 0 p else [::].

Section Filter.

Variable F : archiRealFieldType.

(** [int(x)] of a float: truncation towards zero. *)
Definition py_int (x : F) : int :=
  if 0 <= x then Num.floor x else Num.ceil x.

(** The state of numpy's global random generator and the draws the
    notebook makes from it.  [np_random_draw a size p] is the index draw of
    [np.random.choice(a, size=size, p=p)] once [p] has been accepted. *)
Variable G : Type.
Variable np_random_normal : F -> F -> G -> (F * F) * G.
Variable np_random_uniform : F -> F -> G -> F * G.
Variable np_random_draw : nat -> nat -> seq (xfloat F) -> G -> seq nat * G.

(** [np.sqrt] on finite non-negative values. *)
Variable np_sqrt : F -> F.

(** A state is [np.array([x, y])]. *)
Definition vec : Type := (F * F)%type.

Definition vadd (a b : vec) : vec := (a.1 + b.1, a.2 + b.2).
Definition vsub (a b : vec) : vec := (a.1 - b.1, a.2 - b.2).

(** [np.linalg.norm] of a 1-D array: the Euclidean norm. *)
Definition np_linalg_norm (v : vec) : F := np_sqrt (v.1 ^+ 2 + v.2 ^+ 2).

(** class Particle: an object with fields [state] and [weight]. *)
Record Particle : Type := mkParticle { state : vec; weight : xfloat F }.

(** Objects live in a heap and are named by their address; a Python list
    of particles is a list of addresses, so that two slots can hold the
    same object. *)
Definition addr : Type := nat.

Record world : Type := World { heap : seq Particle; rng : G }.

Definition no_particle : Particle := mkParticle (0, 0) NaN.

Definition load (w : world) (a : addr) : Particle := nth no_particle (heap w) a.

(** Computations that read and write the heap, draw random numbers and
    may raise. *)
Definition M (A : Type) : Type := world -> result (A * world).

Definition ret (A : Type) (a : A) : M A := fun w => Ok (a, w).

Definition bind (A B : Type) (c : M A) (k : A -> M B) : M B :=
  fun w => match c w with
           | Ok (a, w') => k a w'
           | Raise e => Raise e
           end.

Local Notation "x <- c ;; k" := (bind c (fun x => k))
  (at level 100, c at next level, right associativity).

Definition lift (A : Type) (r : result A) : M A :=
  fun w => match r with
           | Ok a => Ok (a, w)
           | Raise e => Raise e
           end.

Definition random (A : Type) (draw : G -> A * G) : M A :=
  fun w => let: (a, g) := draw (rng w) in Ok (a, World (heap w) g).

Definition get (a : addr) : M Particle := fun w => Ok (load w a, w).

Definition put (a : addr) (p : Particle) : M unit :=
  fun w => Ok (tt, World (set_nth no_particle (heap w) a p) (rng w)).

(** [for j in js: acc = body(j, acc)] *)
Fixpoint for_acc (A : Type) (js : seq nat) (body : nat -> A -> M A) (acc : A)
    : M A :=
  if js is j :: js' then acc' <- body j acc;; for_acc js' body acc'
  else ret acc.

(** [for x in l: body(x)] *)
Fixpoint for_each (A : Type) (l : seq A) (body : A -> M unit) : M unit :=
  if l is x :: l' then _ <- body x;; for_each l' body else ret tt.

(** Particle.__init__(self, x, y, w): a new object. *)
Definition Particle_init (x y : F) (w : xfloat F) : M addr :=
  fun s => Ok (size (heap s),
               World (rcons (heap s) (mkParticle (x, y) w)) (rng s)).

(** Particle.predict(self, u_t) *)
Definition Particle_predict (self : addr) (u_t : vec) : M unit :=
  motion_model_noise <- random (np_random_normal 0 (1 / 100));;
  p <- get self;;
  put self (mkParticle (vadd (vadd (state p) u_t) motion_model_noise)
                       (weight p)).

(** Particle.update(self, z_t) *)
Definition Particle_update (self : addr) (z_t : vec) : M unit :=
  p <- get self;;
  let dist_from_state_to_z := np_linalg_norm (vsub (state p) z_t) in
  put self (mkParticle (state p)
                       (xdiv (Fin 1) (Fin dist_from_state_to_z))).

(** [np.random.choice(a, size=size, p=p)], as numpy documents it: raises
    [ValueError] unless [p] is a vector of [a] probabilities (no [nan], no
    negative entry, sum 1; the tolerance on the sum is idealised away);
    otherwise draws [size] indices below [a]. *)
Definition valid_p (a : nat) (p : seq (xfloat F)) : bool :=
  [&& size p == a, is_one (np_sum p) & all (fun x => ~~ xlt0 x) p].

Definition np_random_choice (a size : nat) (p : seq (xfloat F))
    : M (seq nat) :=
  fun w => if valid_p a p then random (np_random_draw a size p) w
           else Raise ValueError.

(** The initial particles of the main cell. *)
Definition sample_initial_particles (num_particles : nat) : M (seq addr) :=
  for_acc (iota 0 num_particles)
    (fun _ particles =>
       x <- random (np_random_uniform 0 10);;
       y <- random (np_random_uniform 0 10);;
       p <- Particle_init x y (Fin 1);;
       ret (rcons particles p))
    [::].

(** [weights = []; for p in particles: weights.append(p.weight)] *)
Definition collect_weights (particles : seq addr) : M (seq (xfloat F)) :=
  fun w => Ok ([seq weight (load w p) | p <- particles], w).

(** [np.array(weights) / float(np.sum(weights))] *)
Definition normalized (weights : seq (xfloat F)) : seq (xfloat F) :=
  [seq xdiv x (np_sum weights) | x <- weights].

(** The resampling part of the body of the main loop, from [alpha = 0.9]
    to the end of the second [for j] loop; [alpha] and [num_particles]
    are parameters. *)
Definition resample (num_particles : nat) (alpha : F)
    (particles : seq addr) : M (seq addr) :=
  weights <- collect_weights particles;;
  let normalized_weights := normalized weights in
  indexes <- np_random_choice num_particles num_particles normalized_weights;;
  let kept := py_int (num_particles%:R * alpha) in
  particles <-
    for_acc (py_range kept)
      (fun j particles =>
         i <- lift (py_getitem 0%N indexes j);;
         p <- lift (py_getitem 0%N particles i);;
         lift (py_setitem 0%N particles j p))
      particles;;
  for_acc (py_range (num_particles%:Z - kept))
    (fun j particles =>
       x <- random (np_random_uniform 0 10);;
       y <- random (np_random_uniform 0 10);;
       p <- Particle_init x y (Fin 0);;
       lift (py_setitem 0%N particles (kept + j) p))
    particles.

(** *** Vocabulary of the resampling claims *)

(** A weight sum that cannot be divided by: zero or not finite. *)
Definition is_degenerate (t : xfloat F) : bool :=
  if t is Fin s then s == 0 else true.

(** [c] successive samples of the prior of the initial particles:
    [x = np.random.uniform(0, 10); y = np.random.uniform(0, 10)]. *)
Fixpoint prior_draws (c : nat) (g : G) : seq vec * G :=
  if c is c'.+1 then
    let: (x, g1) := np_random_uniform 0 10 g in
    let: (y, g2) := np_random_uniform 0 10 g1 in
    let: (vs, g3) := prior_draws c' g2 in
    ((x, y) :: vs, g3)
  else ([::], g).

(** The objects that the second loop creates from such samples. *)
Definition fresh (vs : seq vec) : seq Particle :=
  [seq mkParticle v (Fin 0) | v <- vs].

(** The list after the iterations [js] of the first loop, when no index
    is out of range: slot [j] receives what the list holds, at that moment,
    at the [j]-th drawn index. *)
Definition keep (idx : seq nat) (ps : seq addr) (js : seq nat) : seq addr :=
  foldl (fun l j => set_nth 0%N l j (nth 0%N l (nth 0%N idx j))) ps js.

End Filter.
End ParticleFilter.

(** ** A concrete instance: rational numbers and a recorded random stream *)

Module Example.

Import ParticleFilter.

(** The random generator replays recorded draws: indices for
    [np.random.choice], and numbers that the uniform and normal draws
    rescale. *)
Record stream : Type := Stream { ints : seq nat; reals : seq rat }.

Definition next_real (g : stream) : rat * stream :=
  (head 0 (reals g), Stream (ints g) (behead (reals g))).

Definition ex_uniform (low high : rat) (g : stream) : rat * stream :=
  let: (r, g1) := next_real g in (low + (high - low) * r, g1).

Definition ex_normal (loc scale : rat) (g : stream) : (rat * rat) * stream :=
  let: (a, g1) := next_real g in
  let: (b, g2) := next_real g1 in
  ((loc + scale * a, loc + scale * b), g2).

Definition ex_draw (a size : nat) (p : seq (xfloat rat)) (g : stream)
    : seq nat * stream :=
  ([seq (i %% a)%N | i <- take size (ints g ++ nseq size 0%N)],
   Stream (drop size (ints g)) (reals g)).

(** Square root on the rationals, rounded down to a multiple of the
    inverse of the denominator; exact on squares of rationals. *)
Definition rat_sqrt (x : rat) : rat :=
  if 0 < x then (Nat.sqrt (`|numq x| * `|denq x|))%:R / (denq x)%:~R else 0.

(** Three particles with equal weights, and the draw [1; 0; 2]. *)
Definition three_particles : seq (Particle rat) :=
  [:: mkParticle (0, 0) (Fin 1);
      mkParticle (3%:R, 4%:R) (Fin 1);
      mkParticle (6%:R, 8%:R) (Fin 1)].

Definition w3 : world rat stream :=
  World three_particles
        (Stream [:: 1; 0; 2]%N [:: 1 / 2%:R; 1 / 4%:R; 1; 2%:R; 3%:R; 4%:R]).

(** Two particles whose weights are both exactly zero. *)
Definition w00 : world rat stream :=
  World [:: mkParticle (0, 0) (Fin 0); mkParticle (1, 1) (Fin 0)]
        (Stream [:: 0; 1]%N [::]).

(** Kalman filter: two-dimensional identity model. *)
Definition I2 : 'M[rat]_2 := 1%:M.
Definition Q2 : 'M[rat]_2 := (3%:R / 10%:R)%:M.
Definition R2 : 'M[rat]_2 := (3%:R / 4%:R)%:M.
Definition Sigma2 : 'M[rat]_2 := (1 / 10%:R)%:M.
Definition mu2 : 'cV[rat]_2 := 0.
Definition u2 : 'cV[rat]_2 := const_mx 1.
Definition z2 : 'cV[rat]_2 := const_mx (6%:R / 5%:R).

(** A singular covariance, (1, 49)^T (1, 49), that float64 elimination
    does not recognise as singular. *)
Definition Sigma49 : 'M[rat]_2 :=
  \matrix_(i, j) (if i == 0 then if j == 0 then 1 else 49%:R
                  else if j == 0 then 49%:R else 2401%:R).

End Example.

(** ** The main cell of the Kalman notebook *)

Module KalmanRun.

Import Kalman ParticleFilter.

(** [for j in js: s = body(j, s)], stopping at the first exception. *)
Fixpoint for_result (S : Type) (js : seq nat) (body : nat -> S -> result S)
    (s : S) : result S :=
  if js is j :: js' then
    match body j s with
    | Ok s' => for_result js' body s'
    | Raise e => Raise e
    end
  else Ok s.

Section Loop.

Variable F : realFieldType.

(** The generator state and the scalar draw of [np.random.normal]. *)
Variable G : Type.
Variable np_random_normal : F -> F -> G -> F * G.

(** [np.random.normal(loc=loc, scale=scale)]: numpy refuses a negative
    scale before it draws. *)
Definition normal (loc scale : F) (g : G) : result (F * G) :=
  if scale < 0 then Raise ValueError else Ok (np_random_normal loc scale g).

(** [np.array([x, y])] and [np.array([[a, b], [c, d]])] *)
Definition array2 (x y : F) : 'cV[F]_2 := \col_i (if i == 0 then x else y).

Definition array22 (a b c d : F) : 'M[F]_2 :=
  \matrix_(i, j) (if i == 0 then if j == 0 then a else b
                  else if j == 0 then c else d).

(** The variables that the loop of the main cell assigns. *)
Record run_state : Type := RunState {
  mu_current : 'cV[F]_2;
  Sigma_current : 'M[F]_2;
  measurements : seq (F * F);
  filtered_mus : seq 'cV[F]_2;
  gen : G
}.

(** What [gesv] does with a singular residual covariance. *)
Variable gesv_singular : 'M[F]_2 -> option 'M[F]_2.

(** The globals that the loop reads; [KalmanNotebook] below gives them
    the values of the notebook, where R is built from the two noise
    scales. *)
Variables (A B Q H R : 'M[F]_2).
Variables (measurement_noise_x_var measurement_noise_y_var : F).
Variable ground_truth_x : seq F.

(** The body of [for i in range(num_data-1)]. *)
Definition kalman_iteration (i : nat) (st : run_state) : result run_state :=
  let u_t := array2 1 1 in
  let: (predicted_mu, predicted_Sigma) :=
    predict A B Q (mu_current st) u_t (Sigma_current st) in
  match normal 0 measurement_noise_x_var (gen st) with
  | Raise e => Raise e
  | Ok (measurement_noise_x, g1) =>
  match normal 0 measurement_noise_y_var g1 with
  | Raise e => Raise e
  | Ok (measurement_noise_y, g2) =>
  match py_getitem 0 ground_truth_x i.+1 with
  | Raise e => Raise e
  | Ok truth =>
      let measurement_x_new := truth + measurement_noise_x in
      let measurement_y_new := truth + measurement_noise_y in
      let z := array2 measurement_x_new measurement_y_new in
      match update gesv_singular H R z predicted_mu predicted_Sigma with
      | Raise e => Raise e
      | Ok (mu, Sigma) =>
          Ok (RunState mu Sigma
                (rcons (measurements st)
                       (measurement_x_new, measurement_y_new))
                (rcons (filtered_mus st) mu) g2)
      end
  end end end.

(** The loop, from [mu_current = mu_0.copy()] on. *)
Definition kalman_run (mu_0 : 'cV[F]_2) (Sigma_0 : 'M[F]_2)
    (num_data : nat) (g : G) : result run_state :=
  for_result (py_range (num_data%:Z - 1)) kalman_iteration
    (RunState mu_0 Sigma_0 [::] [::] g).

End Loop.

(** The constants of the notebook. *)
Module KalmanNotebook.
Section Constants.

Variable F : realFieldType.

Definition num_data : nat := 10.
Definition measurement_noise_x_var : F := 75%:R / 100%:R.
Definition measurement_noise_y_var : F := 6%:R / 10%:R.
Definition mu_0 : 'cV[F]_2 := array2 0 0.
Definition Sigma_0 : 'M[F]_2 := array22 (1 / 10%:R) 0 0 (1 / 10%:R).
Definition A : 'M[F]_2 := array22 1 0 0 1.
Definition B : 'M[F]_2 := array22 1 0 0 1.
Definition Q : 'M[F]_2 := array22 (3%:R / 10%:R) 0 0 (3%:R / 10%:R).
Definition H : 'M[F]_2 := array22 1 0 0 1.
Definition R : 'M[F]_2 :=
  array22 measurement_noise_x_var 0 0 measurement_noise_y_var.

Variable G : Type.
Variable np_random_normal : F -> F -> G -> F * G.
Variable gesv_singular : 'M[F]_2 -> option 'M[F]_2.
Variable ground_truth_x : seq F.

Definition main_cell (g : G) : result (run_state F G) :=
  kalman_run np_random_normal gesv_singular A B Q H R
    measurement_noise_x_var measurement_noise_y_var ground_truth_x
    mu_0 Sigma_0 num_data g.

End Constants.
End KalmanNotebook.

Section Covariance.

Variable F : realFieldType.
Variable d : nat.

(** One predict and update of the covariance alone. *)
Definition riccati (A Q H R Sigma : 'M[F]_d) : 'M[F]_d :=
  let P := A *m Sigma *m A^T + Q in
  P - P *m H^T *m invmx (H *m P *m H^T + R) *m H *m P.

End Covariance.

End KalmanRun.

(** ** The main cell of the particle-filter notebook *)

Module ParticleRun.

Import ParticleFilter.

Section PySlice.

Variable A : Type.

(** [l[:k]]; a negative [k] counts from the end. *)
Definition py_slice_to (l : seq A) (k : int) : seq A :=
  match k with
  | Posz p => take p l
  | Negz q => take (size l - q.+1) l
  end.

End PySlice.

Section Loop.

Variable F : archiRealFieldType.
Variable G : Type.

(** The draws of the notebook: [np.random.normal(0, 0.01, size=(2,))],
    the scalar [np.random.normal(loc=, scale=)], [np.random.uniform] and
    the index draw of [np.random.choice]. *)
Variable np_random_normal : F -> F -> G -> (F * F) * G.
Variable np_random_normal_scalar : F -> F -> G -> F * G.
Variable np_random_uniform : F -> F -> G -> F * G.
Variable np_random_draw : nat -> nat -> seq (xfloat F) -> G -> seq nat * G.
Variable np_sqrt : F -> F.

Local Notation M := (M F G).
Local Notation "x <- c ;; k" := (bind c (fun x => k))
  (at level 100, c at next level, right associativity).

(** [for p in particles: p.predict(u_t)] *)
Definition predict_all (u_t : vec F) (particles : seq addr) : M unit :=
  for_each particles (fun p => Particle_predict np_random_normal p u_t).

(** [for p in particles: p.update(z_t)] *)
Definition update_all (z_t : vec F) (particles : seq addr) : M unit :=
  for_each particles (fun p => Particle_update np_sqrt p z_t).

(** The scalar [np.random.normal(loc=loc, scale=scale)]: numpy refuses a
    negative scale before it draws. *)
Definition normal (loc scale : F) : M F :=
  fun w => if scale < 0 then Raise ValueError
           else random (np_random_normal_scalar loc scale) w.

(** [np.mean] of a list of floats: the sum over the count, [nan] (with a
    warning) for the empty list. *)
Definition np_mean (xs : seq F) : xfloat F :=
  xdiv (Fin (\sum_(x <- xs) x)) (Fin (size xs)%:R).

(** The state estimate: the mean of the particles of
    [particles[:int(num_particles * alpha)]]. *)
Definition estimate (num_particles : nat) (alpha : F) (particles : seq addr)
    : M (xfloat F * xfloat F) :=
  fun w =>
    let kept := py_slice_to particles (py_int (num_particles%:R * alpha)) in
    let xs := [seq (state (load w p)).1 | p <- kept] in
    let ys := [seq (state (load w p)).2 | p <- kept] in
    Ok ((np_mean xs, np_mean ys), w).

(** [copy.deepcopy(particles)]: the copies are never written again, so the
    log keeps the values of the objects. *)
Definition deepcopy (particles : seq addr) : M (seq (Particle F)) :=
  fun w => Ok ([seq load w p | p <- particles], w).

(** The lists that the loop appends to. *)
Record logs : Type := Logs {
  filtered_xs : seq (xfloat F);
  filtered_ys : seq (xfloat F);
  measurements : seq (F * F);
  particles_over_time : seq (seq (Particle F))
}.

(** The globals that the loop reads, and [alpha], which the notebook
    sets to 0.9 in every iteration; [ParticleNotebook] below gives them the
    values of the notebook. *)
Variable num_particles : nat.
Variable alpha : F.
Variable u_t : vec F.
Variables (measurement_noise_x_var measurement_noise_y_var : F).
Variable ground_truth_x : seq F.

(** The body of [for i in range(num_data)]. *)
Definition pf_iteration (i : nat) (st : seq addr * logs)
    : M (seq addr * logs) :=
  let: (particles, lg) := st in
  _ <- predict_all u_t particles;;
  measurement_noise_x <- normal 0 measurement_noise_x_var;;
  measurement_noise_y <- normal 0 measurement_noise_y_var;;
  truth <- lift (py_getitem 0 ground_truth_x i.+1);;
  let measurement_x_new := truth + measurement_noise_x in
  let measurement_y_new := truth + measurement_noise_y in
  let z_t := (measurement_x_new, measurement_y_new) in
  let measurements := rcons (measurements lg) z_t in
  _ <- update_all z_t particles;;
  particles <-
    resample np_random_uniform np_random_draw num_particles alpha particles;;
  est <- estimate num_particles alpha particles;;
  let: (estimated_x, estimated_y) := est in
  snapshot <- deepcopy particles;;
  ret (particles,
       Logs (rcons (filtered_xs lg) estimated_x)
            (rcons (filtered_ys lg) estimated_y)
            measurements
            (rcons (particles_over_time lg) snapshot)).

(** The main cell, from [filtered_xs = []] to the end of the loop. *)
Definition pf_run (num_data : nat) : M (seq addr * logs) :=
  particles <- sample_initial_particles np_random_uniform num_particles;;
  for_acc (py_range num_data) pf_iteration
    (particles, Logs [::] [::] [::] [::]).

(** *** Vocabulary of the statements about the passes *)

(** [c] successive draws of the motion noise. *)
Fixpoint normal_draws (c : nat) (g : G) : seq (vec F) * G :=
  if c is c'.+1 then
    let: (v, g1) := np_random_normal 0 (1 / 100) g in
    let: (vs, g2) := normal_draws c' g1 in
    (v :: vs, g2)
  else ([::], g).

(** The displacements that a pass over [particles] applies to the object
    at address [a]: one for every slot that holds it. *)
Definition moves (particles : seq addr) (noises : seq (vec F)) (a : addr)
    : seq (vec F) :=
  [seq vadd u_t pn.2 | pn <- zip particles noises & pn.1 == a].

End Loop.

(** The constants of the notebook. *)
Module ParticleNotebook.
Section Constants.

Variable F : archiRealFieldType.

Definition num_data : nat := 100.
Definition measurement_noise_x_var : F := 5%:R / 10%:R.
Definition measurement_noise_y_var : F := 5%:R / 10%:R.
Definition num_particles : nat := 1000.
Definition alpha : F := 9%:R / 10%:R.
Definition u_t : vec F := (10%:R / num_data%:R, 10%:R / num_data%:R).

Variable G : Type.
Variable np_random_normal : F -> F -> G -> (F * F) * G.
Variable np_random_normal_scalar : F -> F -> G -> F * G.
Variable np_random_uniform : F -> F -> G -> F * G.
Variable np_random_draw : nat -> nat -> seq (xfloat F) -> G -> seq nat * G.
Variable np_sqrt : F -> F.
Variable ground_truth_x : seq F.

Definition main_cell : M F G (seq addr * logs F) :=
  pf_run np_random_normal np_random_normal_scalar np_random_uniform
    np_random_draw np_sqrt num_particles alpha u_t
    measurement_noise_x_var measurement_noise_y_var ground_truth_x num_data.

End Constants.
End ParticleNotebook.

End ParticleRun.

(** ** Inputs of the runs on the rationals *)

Module RunExample.

Import ParticleFilter Example.

(** The scalar normal draw of the replayed stream. *)
Definition ex_normal_scalar (loc scale : rat) (g : stream) : rat * stream :=
  let: (a, g1) := next_real g in (loc + scale * a, g1).

Definition g0 : stream := Stream [::] [:: 1 / 2%:R; 1 / 4%:R].

(** Ground truths of three, one, eleven and a hundred and one entries. *)
Definition truth3 : seq rat := [:: 0; 1; 2%:R].
Definition truth1 : seq rat := [:: 0].
Definition truth11 : seq rat := nseq 11 0.
Definition truth101 : seq rat := nseq 101 0.

(** Diagonals of a covariance and of a measurement-noise covariance. *)
Definition d2 : 'rV[rat]_2 := const_mx (2%:R / 5%:R).
Definition r2 : 'rV[rat]_2 := const_mx (3%:R / 4%:R).

(** A list in which slots 0 and 1 hold the same particle. *)
Definition aliased : seq addr := [:: 1; 1; 2]%N.

End RunExample.

(** * Theorems *)

Import Kalman ParticleFilter.

(** ** Quadratic forms and positive semi-definite matrices *)

Section CovarianceFacts.

Variable F : realFieldType.

Lemma qform_tr d (M : 'M[F]_d) x : qform M^T x = qform M x.
Proof.
rewrite /qform.
have -> : x^T *m M^T *m x = (x^T *m M *m x)^T.
  by rewrite !trmx_mul trmxK mulmxA.
by rewrite mxE.
Qed.

Lemma qform_congr p d (A : 'M[F]_(p, d)) (M : 'M[F]_p) x :
  qform (A^T *m M *m A) x = qform M (A *m x).
Proof. by rewrite /qform trmx_mul !mulmxA. Qed.

Lemma qformD d (M N : 'M[F]_d) x : qform (M + N) x = qform M x + qform N x.
Proof. by rewrite /qform mulmxDr mulmxDl mxE. Qed.

Lemma qform_diag d (M : 'M[F]_d) i : qform M (delta_mx i 0) = M i i.
Proof. by rewrite /qform trmx_delta -rowE -colE !mxE. Qed.

Lemma trace_qform d (M : 'M[F]_d) :
  \tr M = \sum_i qform M (delta_mx i 0).
Proof. by apply: eq_bigr => i _; rewrite qform_diag. Qed.

Lemma psd_congr p d (A : 'M[F]_(d, p)) (M : 'M[F]_p) :
  psd M -> psd (A *m M *m A^T).
Proof.
case=> symM posM; split.
  by rewrite /symmetric !trmx_mul trmxK symM mulmxA.
by move=> x; rewrite -{1}[A]trmxK qform_congr.
Qed.

Lemma psdD d (M N : 'M[F]_d) : psd M -> psd N -> psd (M + N).
Proof.
case=> symM posM [symN posN]; split.
  by rewrite /symmetric linearD /= symM symN.
by move=> x; rewrite qformD addr_ge0.
Qed.

Lemma qform_inv_ge0 d (S : 'M[F]_d) :
  S \in unitmx -> (forall x, 0 <= qform S x) ->
  forall y, 0 <= qform (invmx S) y.
Proof.
move=> uS posS y.
have -> : invmx S = (invmx S)^T *m S^T *m invmx S.
  by rewrite -trmx_mul mulmxV // trmx1 mul1mx.
by rewrite qform_congr qform_tr.
Qed.

Lemma psd_inv d (S : 'M[F]_d) : S \in unitmx -> psd S -> psd (invmx S).
Proof.
move=> uS [symS posS]; split; last exact: qform_inv_ge0.
by rewrite /symmetric trmx_inv symS.
Qed.

Lemma dot_eq0 d (v : 'cV[F]_d) : (v^T *m v) 0 0 = 0 -> v = 0.
Proof.
rewrite mxE => s0; apply/colP => i; rewrite [RHS]mxE.
have pos j : true -> 0 <= v^T 0 j * v j 0 by rewrite mxE -expr2 sqr_ge0.
have /(_ i isT) := psumr_eq0P pos s0.
by rewrite mxE -expr2 => /eqP; rewrite sqrf_eq0 => /eqP.
Qed.

Lemma quad_neg (a q : F) :
  0 <= q -> (forall t, 0 <= 2 * t * a + t ^+ 2 * q) -> a = 0.
Proof.
move=> q0 H; have q1 : 0 < q + 1 by lra.
have := H (- a / (q + 1)).
have -> : 2 * (- a / (q + 1)) * a + (- a / (q + 1)) ^+ 2 * q
          = - (a ^+ 2 * ((q + 2) / (q + 1) ^+ 2)).
  by field by rewrite gt_eqF.
rewrite oppr_ge0 => le0.
have c0 : 0 < (q + 2) / (q + 1) ^+ 2.
  by rewrite divr_gt0 ?exprn_gt0 //; lra.
have a2 : a ^+ 2 <= 0 by rewrite -(pmulr_lle0 _ c0).
by apply/eqP; rewrite -sqrf_eq0 eq_le a2 sqr_ge0.
Qed.

Lemma qform_line d (S : 'M[F]_d) (w v : 'cV[F]_d) (t : F) :
  symmetric S ->
  qform S (w + t *: v) =
  qform S w + (2 * t * (v^T *m S *m w) 0 0 + t ^+ 2 * qform S v).
Proof.
move=> symS.
have : (w^T *m S *m v) 0 0 = (v^T *m S *m w) 0 0.
  have -> : w^T *m S *m v = (v^T *m S *m w)^T.
    by rewrite !trmx_mul trmxK symS mulmxA.
  by rewrite mxE.
rewrite /qform [(w + _)^T]linearD /= [(t *: v)^T]linearZ /=.
rewrite !mulmxDl !mulmxDr -!scalemxAr -!scalemxAl.
move: (w^T *m S *m w) (w^T *m S *m v) (v^T *m S *m w) (v^T *m S *m v).
by move=> a b c e; rewrite !mxE => ->; ring.
Qed.

Lemma psd_qform0 d (S : 'M[F]_d) (w : 'cV[F]_d) :
  psd S -> qform S w = 0 -> S *m w = 0.
Proof.
case=> symS posS qw0; apply: dot_eq0.
set v := S *m w.
have bE : (v^T *m S *m w) 0 0 = (v^T *m v) 0 0 by rewrite -mulmxA.
rewrite -bE; apply: (@quad_neg _ (qform S v)) => // t.
by have := posS (w + t *: v); rewrite qform_line // qw0 add0r.
Qed.

Lemma psd_scalar d (a : F) : 0 <= a -> psd (a%:M : 'M[F]_d).
Proof.
move=> a0; split; first by rewrite /symmetric tr_scalar_mx.
move=> x; rewrite /qform mul_mx_scalar -scalemxAl !mxE mulr_ge0 //.
by apply: sumr_ge0 => i _; rewrite mxE -expr2 sqr_ge0.
Qed.

Lemma unit_scalar d (a : F) : a != 0 -> (a%:M : 'M[F]_d) \in unitmx.
Proof. by move=> a0; rewrite unitmxE det_scalar unitfE expf_neq0. Qed.

End CovarianceFacts.

(** ** Kalman filter *)

Section KalmanFacts.

Variable F : realFieldType.
Variables n m k : nat.
Variable gesv_singular : 'M[F]_k -> option 'M[F]_k.
Implicit Types (H : 'M[F]_(k, n)) (R : 'M[F]_k) (z : 'cV[F]_k).
Implicit Types (mu : 'cV[F]_n) (Sigma : 'M[F]_n).

Local Notation update := (update gesv_singular).

Lemma inv_unique d (S X : 'M[F]_d) : X *m S = 1%:M -> S \in unitmx /\ X = invmx S.
Proof.
move=> XS; have [uX uS] := mulmx1_unit XS; split=> //.
by rewrite -[X]mulmx1 -(mulmxV uS) mulmxA XS mul1mx.
Qed.

Lemma updateE H R z mu Sigma :
  let S := H *m Sigma *m H^T + R in
  let K := Sigma *m H^T *m invmx S in
  S \in unitmx ->
  update H R z mu Sigma = Ok (mu + K *m (z - H *m mu), Sigma - K *m H *m Sigma).
Proof. by move=> S K uS; rewrite /Kalman.update /np_linalg_inv uS. Qed.

(** On a singular residual covariance [update] uses whatever [gesv]
    returns. *)
Lemma update_singularE H R z mu Sigma :
  let S := H *m Sigma *m H^T + R in
  S \notin unitmx ->
  update H R z mu Sigma
  = if gesv_singular S is Some G
    then Ok (mu + Sigma *m H^T *m G *m (z - H *m mu),
             Sigma - Sigma *m H^T *m G *m H *m Sigma)
    else Raise LinAlgError.
Proof.
move=> S /negbTE nS; rewrite /Kalman.update /np_linalg_inv -/S nS.
by case: (gesv_singular S).
Qed.

(** No belief satisfies the five steps when the residual covariance is
    singular: step 3 has no inverse to use. *)
Lemma singular_no_steps H R z mu Sigma out :
  H *m Sigma *m H^T + R \notin unitmx -> ~ update_steps H R z mu Sigma out.
Proof.
move=> nS [rm [rc [ri [g [_ rcE [riK _] _ _]]]]].
by move: riK nS; rewrite rcE mulmxA => /inv_unique [->].
Qed.

Lemma gain_reduction H R Sigma :
  let S := H *m Sigma *m H^T + R in
  symmetric Sigma ->
  Sigma *m H^T *m invmx S *m H *m Sigma
  = (H *m Sigma)^T *m invmx S *m (H *m Sigma).
Proof. by move=> S symS; rewrite trmx_mul symS !mulmxA. Qed.

Lemma psd_residual H R Sigma : psd Sigma -> psd R -> psd (H *m Sigma *m H^T + R).
Proof. by move=> pS pR; apply: psdD => //; apply: psd_congr. Qed.

Lemma psd_reduction H R Sigma :
  let S := H *m Sigma *m H^T + R in
  psd Sigma -> psd R -> S \in unitmx ->
  psd (Sigma *m H^T *m invmx S *m H *m Sigma).
Proof.
move=> S pS pR uS; have [symS _] := pS; rewrite gain_reduction //.
have [symI posI] := psd_inv uS (psd_residual H pS pR).
split; last by move=> x; rewrite qform_congr posI.
by rewrite /symmetric trmx_mul [(_ *m invmx S)^T]trmx_mul trmxK symI mulmxA.
Qed.

Lemma psd_trace_ge0 d (M : 'M[F]_d) : psd M -> 0 <= \tr M.
Proof. by case=> _ posM; rewrite trace_qform sumr_ge0. Qed.

Lemma update_steps_run H R z mu Sigma out :
  update_steps H R z mu Sigma out -> update H R z mu Sigma = Ok out.
Proof.
case=> rm [rc [ri [g [-> -> [riK _] -> ->]]]].
rewrite mulmxA in riK; have [uS ->] := inv_unique riK.
by rewrite updateE // !mulmxA.
Qed.

(** C1.  Whenever the residual covariance H Sigma H^T + R is invertible,
    [update] returns a pair (new mean, new covariance), and this pair is the
    one, and the only one, that the five steps of the specification produce:
    residual mean z - H mean, residual covariance H Sigma H^T + R, gain
    Sigma H^T (residual covariance)^-1, new mean mean + gain * residual
    mean, new covariance Sigma - gain H Sigma. *)
Theorem update_computes H R z mu Sigma :
  H *m Sigma *m H^T + R \in unitmx ->
  exists out,
    [/\ update H R z mu Sigma = Ok out,
        update_steps H R z mu Sigma out
      & forall out', update_steps H R z mu Sigma out' -> out' = out].
Proof.
move=> uS; rewrite updateE //; eexists; split; first by [].
  exists (z - H *m mu), (H *m (Sigma *m H^T) + R),
         (invmx (H *m Sigma *m H^T + R)),
         (Sigma *m H^T *m invmx (H *m Sigma *m H^T + R)).
  by rewrite !mulmxA mulVmx // mulmxV.
by move=> out' /update_steps_run; rewrite updateE // => -[].
Qed.

(** C3, as the code has it.  [update] has no check of its own on the
    residual covariance S: it hands S to [np.linalg.inv] and uses whatever
    comes back.  When S is singular (determinant 0) the outcome is
    [gesv]'s: [update] raises only if the factorisation of S meets a zero
    pivot, and the exception is then numpy's [LinAlgError]; otherwise it
    returns, without any error, the belief computed from the matrix that
    [gesv] returned.  No belief, returned or not, satisfies the five steps
    of the update then. *)
Theorem update_singular_unguarded H R z mu Sigma :
  let S := H *m Sigma *m H^T + R in
  \det S = 0 ->
  [/\ update H R z mu Sigma
      = (if gesv_singular S is Some G
         then Ok (mu + Sigma *m H^T *m G *m (z - H *m mu),
                  Sigma - Sigma *m H^T *m G *m H *m Sigma)
         else Raise LinAlgError),
      forall e, update H R z mu Sigma = Raise e ->
        e = LinAlgError /\ gesv_singular S = None
    & forall out, ~ update_steps H R z mu Sigma out].
Proof.
move=> S d0; have nS : S \notin unitmx by rewrite unitmxE d0 unitr0.
split; first exact: update_singularE.
  by move=> e; rewrite update_singularE //; case: (gesv_singular S) => // -[].
by move=> out; apply: singular_no_steps.
Qed.

(** C8.  For a PSD predicted covariance, a PSD measurement-noise covariance
    and an invertible residual covariance, the covariance returned by
    [update] is below the predicted covariance in the Loewner order, and its
    trace is at most the trace of the predicted covariance. *)
Theorem update_covariance_le H R z mu Sigma :
  psd Sigma -> psd R -> H *m Sigma *m H^T + R \in unitmx ->
  exists mu' Sigma',
    [/\ update H R z mu Sigma = Ok (mu', Sigma'),
        loewner_le Sigma' Sigma & \tr Sigma' <= \tr Sigma].
Proof.
move=> pS pR uS; rewrite updateE //; do 2!eexists; split; first by [].
  by rewrite /loewner_le opprB addrC subrK; apply: psd_reduction.
rewrite raddfB /= lerBlDr lerDl; apply: psd_trace_ge0.
exact: psd_reduction.
Qed.

Lemma gain_eq0 H R Sigma :
  let S := H *m Sigma *m H^T + R in
  psd Sigma -> psd R -> S \in unitmx ->
  \tr (Sigma *m H^T *m invmx S *m H *m Sigma) = 0 ->
  Sigma *m H^T *m invmx S = 0.
Proof.
move=> S pS pR uS; have [symS _] := pS.
have pI := psd_inv uS (psd_residual H pS pR); have [symI posI] := pI.
rewrite gain_reduction // trace_qform => tr0.
have pos i : true -> 0 <= qform ((H *m Sigma)^T *m invmx S *m (H *m Sigma))
                            (delta_mx i 0).
  by rewrite qform_congr posI.
have col0 i : invmx S *m (H *m Sigma) *m (delta_mx i 0 : 'cV_n) = 0.
  have /(_ i isT) := psumr_eq0P pos tr0.
  rewrite qform_congr => q0.
  by rewrite -[LHS]mulmxA; apply: psd_qform0.
have -> : Sigma *m H^T *m invmx S = (invmx S *m (H *m Sigma))^T.
  by rewrite trmx_mul trmx_mul symI symS.
apply/eqP; rewrite trmx_eq0; apply/eqP/matrixP => i j.
by have := col0 j; rewrite -colE => /colP /(_ i); rewrite !mxE.
Qed.

(** C9.  [predict] followed by [update] with the measurement H * predicted
    mean (zero residual) returns the predicted mean unchanged; the returned
    covariance is below the predicted one, with a strictly smaller trace
    unless the Kalman gain is the zero matrix, in which case the covariance
    is unchanged.  The belief and the two noise covariances are PSD and the
    residual covariance is invertible. *)
Theorem predict_update_zero_residual
    (A : 'M[F]_n) (B : 'M[F]_(n, m)) (Q : 'M[F]_n) H R mu (u : 'cV[F]_m) Sigma :
  let mu_p := (predict A B Q mu u Sigma).1 in
  let Sigma_p := (predict A B Q mu u Sigma).2 in
  let S := H *m Sigma_p *m H^T + R in
  psd Sigma -> psd Q -> psd R -> S \in unitmx ->
  exists Sigma',
    [/\ update H R (H *m mu_p) mu_p Sigma_p = Ok (mu_p, Sigma'),
        loewner_le Sigma' Sigma_p,
        Sigma_p *m H^T *m invmx S != 0 -> \tr Sigma' < \tr Sigma_p
      & Sigma_p *m H^T *m invmx S = 0 -> Sigma' = Sigma_p].
Proof.
move=> mu_p Sigma_p S pS pQ pR uS.
have pP : psd Sigma_p by apply: psdD => //; apply: psd_congr.
rewrite updateE // subrr mulmx0 addr0; eexists; split; first by [].
- by rewrite /loewner_le opprB addrC subrK; exact (psd_reduction pP pR uS).
- move=> K0; rewrite raddfB /= ltrBlDr ltrDl lt0r.
  rewrite (psd_trace_ge0 (psd_reduction pP pR uS)) andbT.
  by apply: contra_neq K0; exact (gain_eq0 pP pR uS).
- by rewrite -/S => ->; rewrite !mul0mx subr0.
Qed.

(** C2.  [predict] returns mean' = A mean + B u_t and covariance' =
    A covariance A^T + Q, where Q is the process-noise covariance; entry by
    entry, these are the sums shown. *)
Theorem predict_computes (A : 'M[F]_n) (B : 'M[F]_(n, m)) (Q : 'M[F]_n)
    mu (u : 'cV[F]_m) Sigma :
  [/\ predict A B Q mu u Sigma = (A *m mu + B *m u, A *m (Sigma *m A^T) + Q),
      forall i, (predict A B Q mu u Sigma).1 i 0
                = \sum_j A i j * mu j 0 + \sum_j B i j * u j 0
    & forall i j, (predict A B Q mu u Sigma).2 i j
                = \sum_a \sum_b A i a * Sigma a b * A j b + Q i j].
Proof.
split=> [|i|i j]; rewrite /predict /= ?mulmxA // !mxE //.
congr (_ + _); rewrite exchange_big /=; apply: eq_bigr => b _.
by rewrite !mxE mulr_suml.
Qed.

End KalmanFacts.

(** ** Particle filter *)

Section XFloatFacts.
Variable F : realFieldType.
Implicit Types (a b : xfloat F) (l : seq (xfloat F)).

Lemma xadd_finite a b : is_finite (xadd a b) = is_finite a && is_finite b.
Proof. by case: a; case: b. Qed.

Lemma np_sum_finite l : is_finite (np_sum l) = all (@is_finite F) l.
Proof. by elim: l => //= a l <-; rewrite xadd_finite. Qed.

Lemma is_one_finite a : is_one a -> is_finite a.
Proof. by case: a. Qed.

Lemma np_sum_Fin (xs : seq F) : np_sum (map (@Fin F) xs) = Fin (\sum_(x <- xs) x).
Proof. by elim: xs => [|x xs IH] /=; rewrite ?big_nil // big_cons IH. Qed.

(** Dividing by a zero sum never gives a finite quotient. *)
Lemma xdiv_zero a : is_finite (xdiv a (Fin 0)) = false.
Proof.
case: a => [x|||] //=; rewrite ?eqxx ?lexx //.
by case: (x == 0) => //; case: (0 < x).
Qed.

(** A non-finite value divided by a non-finite value is not finite. *)
Lemma xdiv_nonfinite a b :
  ~~ is_finite a -> ~~ is_finite b -> is_finite (xdiv a b) = false.
Proof. by case: a => //; case: b. Qed.

Lemma xdiv_Fin (x s : F) : s != 0 -> xdiv (Fin x) (Fin s) = Fin (x / s).
Proof. by rewrite /= => /negbTE ->. Qed.

End XFloatFacts.

Section SetNth.
Variables (T : Type) (x0 : T).
Implicit Types (l : seq T).

Lemma take_set_nth l i a :
  (i < size l)%N -> take i.+1 (set_nth x0 l i a) = rcons (take i l) a.
Proof.
move=> lt_i; rewrite set_nthE lt_i -cat_rcons take_size_cat //.
by rewrite size_rcons size_takel // ltnW.
Qed.

Lemma drop_set_nth l i j a :
  (i < j)%N -> (i < size l)%N -> drop j (set_nth x0 l i a) = drop j l.
Proof.
move=> lt_ij lt_i; rewrite set_nthE lt_i -cat_rcons drop_cat.
rewrite size_rcons size_takel ?(ltnW lt_i) // ltnS leqNgt lt_ij /=.
by rewrite drop_drop subnK.
Qed.

End SetNth.

Section FilterFacts.

Variable F : archiRealFieldType.
Variable G : Type.
Variable np_random_normal : F -> F -> G -> (F * F) * G.
Variable np_random_uniform : F -> F -> G -> F * G.
Variable np_random_draw : nat -> nat -> seq (xfloat F) -> G -> seq nat * G.
Variable np_sqrt : F -> F.

Hypothesis np_sqrt0 : np_sqrt 0 = 0.
Hypothesis np_sqrt_gt0 : forall x, 0 < x -> 0 < np_sqrt x.
Hypothesis draw_size :
  forall a sz p g, size (np_random_draw a sz p g).1 = sz.
Hypothesis draw_range :
  forall a sz p g, (0 < a)%N ->
  all (fun i => (i < a)%N) (np_random_draw a sz p g).1.

Local Notation world := (world F G).
Local Notation predict := (Particle_predict np_random_normal).
Local Notation update := (Particle_update (G:=G) np_sqrt).
Local Notation norm := (np_linalg_norm np_sqrt).
Local Notation resample := (resample np_random_uniform np_random_draw).
Local Notation prior_draws := (prior_draws np_random_uniform).

Implicit Types (w : world) (self a : addr) (u z : vec F).

Lemma norm_eq0 (v : vec F) : (norm v == 0) = (v == (0, 0)).
Proof.
rewrite /np_linalg_norm; case: v => x y /=.
have s0 : 0 <= x ^+ 2 + y ^+ 2 by rewrite addr_ge0 ?sqr_ge0.
case: ((x, y) =P (0, 0)) => [[-> ->]|/eqP ne0].
  by rewrite expr0n /= addr0 np_sqrt0 eqxx.
rewrite gt_eqF // np_sqrt_gt0 // lt0r s0 andbT paddr_eq0 ?sqr_ge0 //.
by rewrite !sqrf_eq0; move: ne0; rewrite xpair_eqE.
Qed.

Lemma vsub_eq0 (s z : vec F) : (vsub s z == (0, 0)) = (s == z).
Proof. by case: s z => [a b] [c d]; rewrite /vsub /= !xpair_eqE !subr_eq0. Qed.

Lemma predict_frame self u w :
  (self < size (heap w))%N ->
  exists noise g',
    let w' := World (set_nth (no_particle F) (heap w) self
                (mkParticle (vadd (vadd (state (load w self)) u) noise)
                            (weight (load w self)))) g' in
    [/\ np_random_normal 0 (1 / 100) (rng w) = (noise, g'),
        predict self u w = Ok (tt, w'),
        weight (load w' self) = weight (load w self),
        size (heap w') = size (heap w)
      & forall b, b != self -> load w' b = load w b].
Proof.
move=> lt_self; case E: (np_random_normal 0 (1 / 100) (rng w)) => [noise g'].
exists noise, g'; split=> //.
- by rewrite /Particle_predict /bind /random E.
- by rewrite /load /= nth_set_nth /= eqxx.
- by rewrite /= size_set_nth; apply/maxn_idPr.
- by move=> b /negbTE neq; rewrite /load /= nth_set_nth /= neq.
Qed.


Lemma update_run self z w :
  update self z w =
  Ok (tt, World (set_nth (no_particle F) (heap w) self
            (mkParticle (state (load w self))
               (xdiv (Fin 1) (Fin (norm (vsub (state (load w self)) z))))))
            (rng w)).
Proof. by []. Qed.

Lemma update_frame self z w :
  (self < size (heap w))%N ->
  exists w',
    [/\ update self z w = Ok (tt, w'),
        state (load w' self) = state (load w self),
        rng w' = rng w,
        size (heap w') = size (heap w)
      & forall b, b != self -> load w' b = load w b].
Proof.
move=> lt_self; rewrite update_run; eexists; split=> //.
- by rewrite /load /= nth_set_nth /= eqxx.
- by rewrite /= size_set_nth; apply/maxn_idPr.
- by move=> b /negbTE neq; rewrite /load /= nth_set_nth /= neq.
Qed.

(** C10.  For a particle of the heap, [Particle.predict] replaces its state
    by state + u_t + noise and leaves its weight as it was, and
    [Particle.update] leaves its state (and the random generator) as it was;
    neither changes the number of objects or any other object. *)
Theorem particle_methods_frame self u z w :
  (self < size (heap w))%N ->
  (exists noise w',
     [/\ predict self u w = Ok (tt, w'),
         state (load w' self) = vadd (vadd (state (load w self)) u) noise,
         weight (load w' self) = weight (load w self),
         size (heap w') = size (heap w)
       & forall b, b != self -> load w' b = load w b])
  /\ (exists w',
     [/\ update self z w = Ok (tt, w'),
         state (load w' self) = state (load w self),
         rng w' = rng w,
         size (heap w') = size (heap w)
       & forall b, b != self -> load w' b = load w b]).
Proof.
move=> lt_self; split; last exact: update_frame.
have [noise [g' [_ run wt sz others]]] := predict_frame u lt_self.
exists noise; eexists; split; [exact: run | | exact: wt | exact: sz | exact: others].
by rewrite /load /= nth_set_nth /= eqxx.
Qed.

Lemma xdiv_norm_self z : xdiv (Fin 1) (Fin (norm (vsub z z))) = PInf.
Proof.
have /eqP -> : norm (vsub z z) == 0 by rewrite norm_eq0 vsub_eq0.
by rewrite /= eqxx oner_eq0 ltr01.
Qed.

(** C5, as the code has it.  [Particle.update] sets the weight to the
    float quotient 1 / ||state - z_t||: the finite number 1 / ||state - z_t||
    when the state differs from z_t, and +infinity, with no special case,
    when the state equals z_t. *)
Theorem update_weight self z w :
  (self < size (heap w))%N ->
  let p := load w self in
  let dist := norm (vsub (state p) z) in
  exists w',
    [/\ update self z w = Ok (tt, w'),
        weight (load w' self) = xdiv (Fin 1) (Fin dist),
        state p != z -> 0 < dist /\ weight (load w' self) = Fin (1 / dist)
      & state p = z -> weight (load w' self) = PInf].
Proof.
move=> lt_self p dist; rewrite update_run; eexists; split=> //.
- by rewrite /load /= nth_set_nth /= eqxx.
- rewrite -vsub_eq0 -norm_eq0 -/p -/dist => d0.
  have dpos : 0 < dist.
    rewrite lt0r d0 /= /dist /np_linalg_norm.
    have s0 : 0 <= (vsub (state p) z).1 ^+ 2 + (vsub (state p) z).2 ^+ 2.
      by rewrite addr_ge0 ?sqr_ge0.
    move: s0; rewrite le0r => /orP [/eqP ->|/np_sqrt_gt0 /ltW //].
    by rewrite np_sqrt0.
  by split=> //; rewrite /load /= nth_set_nth /= eqxx (negbTE d0).
- move=> /eqP; rewrite -vsub_eq0 -norm_eq0 -/p -/dist => /eqP d0.
  by rewrite /load /= nth_set_nth /= eqxx -/p -/dist d0 eqxx oner_eq0 ltr01.
Qed.


Lemma normalized_degenerate (ws : seq (xfloat F)) :
  is_degenerate (np_sum ws) -> (0 < size ws)%N ->
  has (fun x => ~~ is_finite x) (normalized ws).
Proof.
rewrite /normalized has_map; case tE: (np_sum ws) => [s|||] /=.
- move=> /eqP s0; case: ws {tE} => // a ws _.
  by rewrite [has _ _]/= s0 xdiv_zero.
all: move=> _ _; have : ~~ is_finite (np_sum ws) by rewrite tE.
all: rewrite np_sum_finite -has_predC; apply: sub_has => a /= nfa.
all: by rewrite xdiv_nonfinite.
Qed.

Lemma degenerate_invalid (n : nat) (ws : seq (xfloat F)) :
  is_degenerate (np_sum ws) -> valid_p n (normalized ws) = false.
Proof.
move=> deg; apply/negbTE; rewrite /valid_p !negb_and.
apply/orP; right; apply/orP; left.
case: ws deg => [_|a ws deg]; first by rewrite /= eq_sym oner_eq0.
have := normalized_degenerate deg isT; rewrite has_predC -np_sum_finite.
by apply: contra; exact: is_one_finite.
Qed.

Lemma resample_invalid (n : nat) alpha ps w :
  valid_p n (normalized [seq weight (load w p) | p <- ps]) = false ->
  resample n alpha ps w = Raise ValueError.
Proof.
by move=> inv; rewrite /ParticleFilter.resample /bind /= /np_random_choice inv.
Qed.

(** C4, as the code has it.  The resampling step has no check of its own
    before the division.  When the sum of the weights is zero or not finite,
    the normalised weights that it computes contain a value that is not
    finite ([nan] or an infinity) and are handed to [np.random.choice],
    whose [ValueError] ends the step; when the sum is finite and not zero,
    each finite weight w_i is normalised to w_i / sum. *)
Theorem resample_normalization (n : nat) alpha ps w :
  let ws := [seq weight (load w p) | p <- ps] in
  (is_degenerate (np_sum ws) ->
     ((0 < size ws)%N -> has (fun x => ~~ is_finite x) (normalized ws))
     /\ resample n alpha ps w = Raise ValueError)
  /\ (forall s, np_sum ws = Fin s -> s != 0 ->
      forall i x, nth NaN ws i = Fin x -> (i < size ws)%N ->
      nth NaN (normalized ws) i = Fin (x / s)).
Proof.
move=> ws; split=> [deg|s sE s0 i x wi lt_i].
  split; first exact: normalized_degenerate.
  by apply: resample_invalid; apply: degenerate_invalid.
by rewrite /normalized (nth_map NaN) // wi sE xdiv_Fin.
Qed.


Lemma size_keep idx ps js :
  all (fun j => (j < size ps)%N) js -> size (keep idx ps js) = size ps.
Proof.
elim: js ps => //= j js IH ps /andP [lt_j js_ok].
have sz : size (set_nth 0%N ps j (nth 0%N ps (nth 0%N idx j))) = size ps.
  by rewrite size_set_nth; apply/maxn_idPr.
by rewrite IH sz.
Qed.

Lemma keep_loop idx s c ps w :
  (s + c <= size idx)%N -> (s + c <= size ps)%N ->
  all (fun i => (i < size ps)%N) idx ->
  for_acc (iota s c)
    (fun (j : nat) particles =>
       bind (lift (G:=G) (py_getitem 0%N idx j)) (fun i : nat =>
       bind (lift (py_getitem 0%N particles i)) (fun p =>
       lift (py_setitem 0%N particles j p))))
    ps w
  = Ok (keep idx ps (iota s c), w).
Proof.
elim: c s ps => [|c IH] s ps //=; rewrite addnS => lt_idx lt_ps idx_ok.
have lt1 : (s < size idx)%N by apply: leq_trans lt_idx; rewrite ltnS leq_addr.
have lt2 : (s < size ps)%N by apply: leq_trans lt_ps; rewrite ltnS leq_addr.
have lt3 : (nth 0%N idx s < size ps)%N by move/all_nthP: idx_ok; apply.
rewrite /bind /lift /py_getitem /py_setitem /= lt1 /= lt3 /= lt2 /=.
have sz : size (set_nth 0%N ps s (nth 0%N ps (nth 0%N idx s))) = size ps.
  by rewrite size_set_nth; apply/maxn_idPr.
by rewrite -/(bind _ _) IH ?sz ?addSn.
Qed.


Lemma inject_loop (K s c : nat) (l : seq addr) w :
  (K + s + c <= size l)%N ->
  for_acc (iota s c)
    (fun (j : nat) particles =>
       bind (random (np_random_uniform 0 10)) (fun x =>
       bind (random (np_random_uniform 0 10)) (fun y =>
       bind (Particle_init x y (Fin 0)) (fun p =>
       lift (py_setitem 0%N particles (K%:Z + j) p)))))
    l w
  = Ok (take (K + s) l ++ iota (size (heap w)) c ++ drop (K + s + c) l,
        World (heap w ++ fresh (prior_draws c (rng w)).1)
              (prior_draws c (rng w)).2).
Proof.
elim: c s l w => [|c IH] s l [hp g] /=.
  by rewrite addn0 cat_take_drop /fresh /= cats0.
rewrite addnS => lt_l.
have lt1 : (K + s < size l)%N by apply: leq_trans lt_l; rewrite ltnS leq_addr.
rewrite /bind /random /=.
case E1: (np_random_uniform 0 10 g) => [x g1] /=.
case E2: (np_random_uniform 0 10 g1) => [y g2] /=.
rewrite /lift /py_setitem -PoszD /= lt1 -/(bind _ _).
have sz : size (set_nth 0%N l (K + s)%N (size hp)) = size l.
  by rewrite size_set_nth; apply/maxn_idPr.
rewrite IH ?sz ?addnS ?addSn //=; case: (prior_draws c g2) => vs g3 /=.
rewrite take_set_nth // drop_set_nth ?ltnS ?leq_addr // size_rcons.
by rewrite -!cats1 -!catA.
Qed.


Lemma kept_count (n : nat) (alpha : F) :
  0 <= alpha <= 1 ->
  let K := `|Num.floor (n%:R * alpha)|%N in
  py_int (n%:R * alpha) = Posz K /\ (K <= n)%N.
Proof.
move=> /andP [a0 a1] K.
have x0 : 0 <= n%:R * alpha by rewrite mulr_ge0 ?ler0n.
have f0 : 0 <= Num.floor (n%:R * alpha) by rewrite floor_ge0.
rewrite /py_int x0 /K gez0_abs //; split=> //.
rewrite -lez_nat gez0_abs // -(intrKfloor (R:=F) n); apply: le_floor.
by rewrite -pmulrn ler_piMr ?ler0n.
Qed.


Lemma valid_p_gt0 (n : nat) (p : seq (xfloat F)) : valid_p n p -> (0 < n)%N.
Proof.
case/and3P=> /eqP <-; case: p => //=.
by rewrite eq_sym oner_eq0.
Qed.

(** Finite non-negative weights with a non-zero sum are accepted by
    [np.random.choice] once normalised. *)
Lemma normalized_valid (xs : seq F) :
  all (fun x => 0 <= x) xs -> \sum_(x <- xs) x != 0 ->
  valid_p (size xs) (normalized [seq Fin x | x <- xs]).
Proof.
move=> xs_ge0 s0; set s := \sum_(x <- xs) x in s0.
have s_ge0 : 0 <= s by rewrite /s big_seq sumr_ge0 // => x /(allP xs_ge0).
have nE : normalized [seq Fin x | x <- xs] = [seq Fin (x / s) | x <- xs].
  rewrite /normalized np_sum_Fin -/s -map_comp; apply: eq_map => x /=.
  by rewrite (negbTE s0).
rewrite /valid_p nE size_map eqxx /=.
rewrite (map_comp (@Fin F) (fun x => x / s)) np_sum_Fin big_map /=.
rewrite -mulr_suml divff // eqxx /= -map_comp.
rewrite all_map; apply/allP => x /(allP xs_ge0) x0 /=.
by rewrite -leNgt divr_ge0.
Qed.

Lemma bind_ok (A B : Type) (c : M F G A) (k : A -> M F G B) w (r : A) w' :
  c w = Ok (r, w') -> bind c k w = k r w'.
Proof. by rewrite /bind => ->. Qed.

Lemma resample_run (n : nat) alpha ps w :
  0 <= alpha <= 1 -> size ps = n ->
  let p := normalized [seq weight (load w a) | a <- ps] in
  valid_p n p ->
  let K := `|Num.floor (n%:R * alpha)|%N in
  let d := np_random_draw n n p (rng w) in
  let pr := prior_draws (n - K) d.2 in
  resample n alpha ps w
  = Ok (take K (keep d.1 ps (iota 0 K)) ++ iota (size (heap w)) (n - K),
        World (heap w ++ fresh pr.1) pr.2).
Proof.
move=> a01 sz_ps p ok K d pr; have [kE leK] := kept_count n a01.
have sz_idx : size d.1 = n by rewrite draw_size.
have idx_ok : all (fun i => (i < size ps)%N) d.1.
  by rewrite sz_ps draw_range // (valid_p_gt0 ok).
have js_ok : all (fun j => (j < size ps)%N) (iota 0 K).
  by apply/allP => j; rewrite mem_iota add0n sz_ps /= => /leq_trans; apply.
have chE : np_random_choice np_random_draw n n p w = Ok (d.1, World (heap w) d.2).
  by rewrite /np_random_choice ok /random -/d; case: (d).
rewrite /ParticleFilter.resample.
rewrite (@bind_ok _ _ _ _ w [seq weight (load w a) | a <- ps] w) //.
rewrite (bind_ok _ chE) kE /py_range subzn //.
have lt1 : (0 + K <= size d.1)%N by rewrite add0n sz_idx.
have lt2 : (0 + K <= size ps)%N by rewrite add0n sz_ps.
rewrite (bind_ok _ (keep_loop _ lt1 lt2 idx_ok)) -/K.
have sz_keep : size (keep d.1 ps (iota 0 K)) = n by rewrite size_keep.
rewrite (inject_loop (K:=K) (s:=0)) /= addn0 subnKC ?sz_keep //.
by rewrite drop_oversize ?cats0 // sz_keep.
Qed.


Lemma keep_slots idx ps c :
  (c <= size idx)%N -> (c <= size ps)%N ->
  all (fun i => (i < size ps)%N) idx ->
  let l := keep idx ps (iota 0 c) in
  (forall j, (j < c)%N -> exists2 i, i \in idx & nth 0%N l j = nth 0%N ps i)
  /\ (forall j, (c <= j)%N -> nth 0%N l j = nth 0%N ps j).
Proof.
move=> + + idx_ok; elim: c => [|c IH] lt_idx lt_ps l; first by split.
have [kept rest] := IH (ltnW lt_idx) (ltnW lt_ps).
rewrite /l -addn1 iotaD add0n /keep foldl_cat /= -/(keep idx ps (iota 0 c)).
have drawn : exists2 i, i \in idx &
    nth 0%N (keep idx ps (iota 0 c)) (nth 0%N idx c) = nth 0%N ps i.
  case: (ltnP (nth 0%N idx c) c) => [/kept //|/rest ->].
  by exists (nth 0%N idx c) => //; apply: mem_nth.
split=> j; rewrite nth_set_nth /= addn1.
  rewrite ltnS leq_eqVlt; case: eqP => [-> _|_ /=]; first exact: drawn.
  exact: kept.
by move=> lt_j; rewrite gtn_eqF //; apply: rest; apply: ltnW.
Qed.

(** C6.  When the diversity fraction is between 0 and 1, the list has
    [n] slots and [np.random.choice] accepts the normalised weights, the
    resampling step returns a list of [n] slots again.  With K = floor
    (n * alpha): each slot below K holds the old-generation particle at one
    of the drawn indices; slot K + j, for j < n - K, holds a new object whose
    state is the j-th sample of the prior of the initial particles and whose
    weight is zero; the objects of the old heap are not modified. *)
Theorem resample_generation (n : nat) alpha ps w :
  0 <= alpha <= 1 -> size ps = n ->
  let p := normalized [seq weight (load w a) | a <- ps] in
  valid_p n p ->
  let K := `|Num.floor (n%:R * alpha)|%N in
  let d := np_random_draw n n p (rng w) in
  let pr := prior_draws (n - K) d.2 in
  exists ps' w',
    [/\ resample n alpha ps w = Ok (ps', w'),
        size ps' = n /\ (K <= n)%N,
        forall j, (j < K)%N ->
          exists2 i, i \in d.1 & nth 0%N ps' j = nth 0%N ps i,
        forall j, (j < n - K)%N ->
          nth 0%N ps' (K + j) = (size (heap w) + j)%N /\
          load w' (size (heap w) + j) = mkParticle (nth (0, 0) pr.1 j) (Fin 0)
      & forall a, (a < size (heap w))%N -> load w' a = load w a].
Proof.
move=> a01 sz_ps p ok K d pr; have [kE leK] := kept_count n a01.
have sz_idx : size d.1 = n by rewrite draw_size.
have idx_ok : all (fun i => (i < size ps)%N) d.1.
  by rewrite sz_ps draw_range // (valid_p_gt0 ok).
have js_ok : all (fun j => (j < size ps)%N) (iota 0 K).
  by apply/allP => j; rewrite mem_iota add0n sz_ps /= => /leq_trans; apply.
have sz_keep : size (keep d.1 ps (iota 0 K)) = n by rewrite size_keep.
have sz_take : size (take K (keep d.1 ps (iota 0 K))) = K.
  by rewrite size_takel // sz_keep.
have sz_pr c g : size (prior_draws c g).1 = c.
  elim: c g => //= c IH g; case: (np_random_uniform 0 10 g) => x g1.
  case: (np_random_uniform 0 10 g1) => y g2.
  by case E: (prior_draws c g2) (IH g2) => [vs g3] /= ->.
have le1 : (K <= size d.1)%N by rewrite sz_idx.
have le2 : (K <= size ps)%N by rewrite sz_ps.
have [kept _] := keep_slots le1 le2 idx_ok.
rewrite resample_run //; do 2!eexists; split; first by [].
- by rewrite size_cat sz_take size_iota subnKC.
- by move=> j lt_j; rewrite nth_cat sz_take lt_j nth_take //; apply: kept.
- move=> j lt_j; rewrite nth_cat sz_take ltnNge leq_addr /=.
  rewrite addKn nth_iota //; split=> //.
  rewrite /load /= nth_cat ltnNge leq_addr /= addKn /fresh.
  by rewrite (nth_map (0, 0)) // sz_pr.
- by move=> a lt_a; rewrite /load /= nth_cat lt_a.
Qed.

Lemma sample_initial_loop s c acc w :
  for_acc (iota s c)
    (fun (_ : nat) particles =>
       bind (random (np_random_uniform 0 10)) (fun x =>
       bind (random (np_random_uniform 0 10)) (fun y =>
       bind (Particle_init x y (Fin 1)) (fun p =>
       ret (G:=G) (rcons particles p)))))
    acc w
  = Ok (acc ++ iota (size (heap w)) c,
        World (heap w ++ [seq mkParticle v (Fin 1) | v <- (prior_draws c (rng w)).1])
              (prior_draws c (rng w)).2).
Proof.
elim: c s acc w => [|c IH] s acc [hp g] /=; first by rewrite !cats0.
rewrite /bind /random /=.
case E1: (np_random_uniform 0 10 g) => [x g1] /=.
case E2: (np_random_uniform 0 10 g1) => [y g2] /=.
rewrite -/(bind _ _) IH /=; case: (prior_draws c g2) => vs g3 /=.
by rewrite size_rcons -!cats1 -!catA.
Qed.

(** The initial particles are [n] samples of the same prior, with weight 1. *)
Lemma sample_initial_run (n : nat) w :
  sample_initial_particles np_random_uniform n w
  = Ok (iota (size (heap w)) n,
        World (heap w ++ [seq mkParticle v (Fin 1) | v <- (prior_draws n (rng w)).1])
              (prior_draws n (rng w)).2).
Proof. exact: sample_initial_loop. Qed.

End FilterFacts.

(** ** The concrete instance *)

Section ExampleFacts.

Import Example.

Local Notation update := (update Float64.gesv_singular).

Lemma rat_sqrt0 : rat_sqrt 0 = 0.
Proof. by rewrite /rat_sqrt ltxx. Qed.

Lemma rat_sqrt_gt0 (x : rat) : 0 < x -> 0 < rat_sqrt x.
Proof.
move=> x0; rewrite /rat_sqrt x0 divr_gt0 ?ltr0z ?denq_gt0 // ltr0n.
have pos : (0 < `|numq x| * `|denq x|)%N.
  by rewrite muln_gt0 !absz_gt0 denq_neq0 numq_eq0 gt_eqF.
by have /ssrnat.leP := PeanoNat.Nat.sqrt_le_mono _ _ (ssrnat.ltP pos).
Qed.

Lemma ex_draw_size a sz p g : size (ex_draw a sz p g).1 = sz.
Proof. by rewrite /= size_map size_takel // size_cat size_nseq leq_addl. Qed.

Lemma ex_draw_range a sz p g :
  (0 < a)%N -> all (fun i => (i < a)%N) (ex_draw a sz p g).1.
Proof. by move=> a0; rewrite /= all_map; apply/allP => i _ /=; rewrite ltn_pmod. Qed.

Lemma residual_I2 (a b : rat) : I2 *m a%:M *m I2^T + b%:M = (a + b)%:M.
Proof. by rewrite /I2 trmx1 mulmx1 mul1mx -raddfD. Qed.

Lemma scalar2_neq0 (a : rat) : a != 0 -> (a%:M : 'M[rat]_2) != 0.
Proof.
move=> a0; apply/eqP => /matrixP /(_ 0 0); rewrite !mxE /= mulr1n => /eqP.
by rewrite (negbTE a0).
Qed.

Lemma update_computes_witness :
  exists out, update I2 R2 z2 mu2 Sigma2 = Ok out
              /\ update_steps I2 R2 z2 mu2 Sigma2 out.
Proof.
have uS : I2 *m Sigma2 *m I2^T + R2 \in unitmx.
  by rewrite residual_I2 unit_scalar.
by have [out [run steps _]] :=
  update_computes Float64.gesv_singular z2 mu2 uS; exists out.
Defined.

(** The factorisation of the zero matrix meets a zero pivot at once. *)
Lemma gesv_zero : Float64.gesv_singular 0 = None.
Proof.
rewrite /Float64.gesv_singular.
have -> // : Float64.zero_pivot (Float64.dgetrf 0) = true.
by rewrite /Float64.dgetrf !mxE; vm_compute.
Qed.

(** The factorisation of [Sigma49] ends with the pivot 2^-47. *)
Lemma gesv_Sigma49 :
  Float64.gesv_singular Sigma49
  = Some (Float64.dgetrs (Float64.dgetrf Sigma49)).
Proof.
rewrite /Float64.gesv_singular.
have -> // : Float64.zero_pivot (Float64.dgetrf Sigma49) = false.
by rewrite /Float64.dgetrf !mxE /=; vm_compute.
Qed.

Lemma det_Sigma49 : \det Sigma49 = 0.
Proof.
apply/eqP/det0P; exists (\row_j (if j == 0 then 49%:R else - 1)).
  apply/eqP => /rowP /(_ 1); rewrite !mxE /= => /eqP.
  by rewrite oppr_eq0 oner_eq0.
apply/rowP => j; rewrite !mxE big_ord_recl big_ord1 !mxE /=.
case: j => [[|[|j]] lt_j] /=; last 1 [exact: (False_ind _ (notF lt_j))].
  by rewrite mulr1 mulN1r subrr.
by rewrite mulN1r -natrM subrr.
Qed.

Lemma residual_Sigma49 : I2 *m Sigma49 *m I2^T + 0 = Sigma49.
Proof. by rewrite /I2 trmx1 mulmx1 mul1mx addr0. Qed.

Lemma update_singular_unguarded_witness :
  update (0 : 'M[rat]_2) 0 z2 mu2 Sigma2 = Raise LinAlgError.
Proof.
have d0 : \det ((0 : 'M[rat]_2) *m Sigma2 *m 0^T + 0) = 0.
  by rewrite !mul0mx addr0 det0.
have [run _ _] := update_singular_unguarded Float64.gesv_singular z2 mu2 d0.
by rewrite run !mul0mx addr0 gesv_zero.
Defined.

(** C3 fails at H = I, R = 0 and the covariance [Sigma49]: the residual
    covariance has determinant 0, yet [update] raises nothing; it returns a
    belief, and that belief does not satisfy the five steps. *)
Lemma update_singular_returns :
  \det (I2 *m Sigma49 *m I2^T + 0) = 0
  /\ exists out,
       update I2 0 z2 mu2 Sigma49 = Ok out
       /\ ~ update_steps I2 0 z2 mu2 Sigma49 out.
Proof.
have d0 : \det (I2 *m Sigma49 *m I2^T + 0) = 0.
  by rewrite residual_Sigma49 det_Sigma49.
have nS : I2 *m Sigma49 *m I2^T + 0 \notin unitmx by rewrite unitmxE d0 unitr0.
split=> //; rewrite update_singularE // residual_Sigma49 gesv_Sigma49.
by eexists; split; [reflexivity | apply: singular_no_steps].
Qed.

Lemma update_covariance_le_witness :
  exists mu' Sigma',
    update I2 R2 z2 mu2 Sigma2 = Ok (mu', Sigma') /\ \tr Sigma' <= \tr Sigma2.
Proof.
have pS : psd Sigma2 by apply: psd_scalar; rewrite divr_ge0 ?ler01 ?ler0n.
have pR : psd R2 by apply: psd_scalar; rewrite divr_ge0 ?ler0n.
have uS : I2 *m Sigma2 *m I2^T + R2 \in unitmx.
  by rewrite residual_I2 unit_scalar.
have [mu' [Sigma' [run _ tr_le]]] :=
  update_covariance_le Float64.gesv_singular z2 mu2 pS pR uS.
by exists mu', Sigma'.
Defined.

Lemma predict_update_zero_residual_witness :
  let mu_p := (predict I2 I2 Q2 mu2 u2 Sigma2).1 in
  let Sigma_p := (predict I2 I2 Q2 mu2 u2 Sigma2).2 in
  exists Sigma',
    update I2 R2 (I2 *m mu_p) mu_p Sigma_p = Ok (mu_p, Sigma')
    /\ \tr Sigma' < \tr Sigma_p.
Proof.
move=> mu_p Sigma_p.
have pS : psd Sigma2 by apply: psd_scalar; rewrite divr_ge0 ?ler01 ?ler0n.
have pQ : psd Q2 by apply: psd_scalar; rewrite divr_ge0 ?ler0n.
have pR : psd R2 by apply: psd_scalar; rewrite divr_ge0 ?ler0n.
have SpE : Sigma_p = (1 / 10%:R + 3%:R / 10%:R)%:M.
  by rewrite /Sigma_p /= residual_I2.
have uS : I2 *m Sigma_p *m I2^T + R2 \in unitmx.
  by rewrite SpE residual_I2 unit_scalar.
have [Sigma' [run _ tr_lt _]] :=
  @predict_update_zero_residual _ _ _ _ Float64.gesv_singular
    I2 I2 Q2 I2 R2 mu2 u2 Sigma2 pS pQ pR uS.
exists Sigma'; split=> //; apply: tr_lt.
rewrite -/Sigma_p SpE residual_I2 invmx_scalar /I2 trmx1 mulmx1 -scalar_mxM.
exact: scalar2_neq0.
Defined.


Local Notation ex_update := (Particle_update (G:=stream) rat_sqrt).
Local Notation ex_predict := (Particle_predict ex_normal).
Local Notation ex_resample := (resample ex_uniform ex_draw).

Lemma particle_methods_frame_witness :
  (exists noise w',
     ex_predict 1%N (1, 1) w3 = Ok (tt, w')
     /\ weight (load w' 1%N) = weight (load w3 1%N)
     /\ state (load w' 1%N) = vadd (vadd (state (load w3 1%N)) (1, 1)) noise)
  /\ (exists w',
     ex_update 1%N (0, 0) w3 = Ok (tt, w')
     /\ state (load w' 1%N) = state (load w3 1%N)).
Proof.
have lt1 : (1 < size (heap w3))%N by [].
have [[noise [w' [run st wt _ _]]] [w'' [run' st' _ _ _]]] :=
  particle_methods_frame ex_normal rat_sqrt (1, 1) (0, 0) lt1.
by split; [exists noise, w' | exists w''].
Defined.

Lemma update_weight_witness :
  exists w',
    ex_update 1%N (0, 0) w3 = Ok (tt, w')
    /\ weight (load w' 1%N)
       = Fin (1 / np_linalg_norm rat_sqrt (vsub (3%:R, 4%:R) (0, 0))).
Proof.
have lt1 : (1 < size (heap w3))%N by [].
have [w' [run _ finite _]] :=
  update_weight rat_sqrt0 rat_sqrt_gt0 (0, 0) lt1.
by exists w'; split=> //; have [] := finite isT.
Defined.

Lemma update_weight_infinite :
  exists w',
    [/\ ex_update 1%N (3%:R, 4%:R) w3 = Ok (tt, w'),
        weight (load w' 1%N) = PInf
      & is_finite (weight (load w' 1%N)) = false].
Proof.
rewrite update_run; eexists; split; first by [].
  exact: (xdiv_norm_self rat_sqrt0 rat_sqrt_gt0).
by rewrite [weight _](xdiv_norm_self rat_sqrt0 rat_sqrt_gt0 (3%:R, 4%:R)).
Qed.

Lemma resample_zero_weights_nan :
  let ws := [seq weight (load w00 a) | a <- [:: 0; 1]%N] in
  [/\ np_sum ws = Fin 0,
      normalized ws = [:: NaN; NaN],
      np_random_choice ex_draw 2 2 [:: NaN; NaN] w00 = Raise ValueError
    & ex_resample 2 (9%:R / 10%:R) [:: 0; 1]%N w00 = Raise ValueError].
Proof.
have sum0 : np_sum [seq weight (load w00 a) | a <- [:: 0; 1]%N] = Fin 0.
  by rewrite /np_sum /= !addr0.
by split; rewrite ?sum0.
Qed.

Lemma resample_normalization_witness :
  ex_resample 2 (9%:R / 10%:R) [:: 0; 1]%N w00 = Raise ValueError
  /\ nth NaN (normalized [seq weight (load w3 a) | a <- [:: 0; 1; 2]%N]) 0
     = Fin (1 / 3%:R).
Proof.
have [deg _] := resample_normalization ex_uniform ex_draw 2 (9%:R / 10%:R)
                  [:: 0; 1]%N w00.
have [_ nondeg] := resample_normalization ex_uniform ex_draw 3 (9%:R / 10%:R)
                     [:: 0; 1; 2]%N w3.
split; first by have [] := deg isT.
by apply: (nondeg 3%:R) => //; rewrite /np_sum /=; congr Fin; apply/eqP.
Defined.

Lemma resample_generation_witness :
  exists ps' w',
    ex_resample 3 (9%:R / 10%:R) [:: 0; 1; 2]%N w3 = Ok (ps', w')
    /\ size ps' = 3%N.
Proof.
have a01 : 0 <= (9%:R / 10%:R : rat) <= 1 by vm_compute.
have sz : size [:: 0; 1; 2]%N = 3%N by [].
have ok : valid_p 3 (normalized [seq weight (load w3 a) | a <- [:: 0; 1; 2]%N]).
  by vm_compute.
have [ps' [w' [run [sz' _] _ _ _]]] :=
  resample_generation ex_uniform ex_draw_size ex_draw_range a01 sz ok.
exists ps', w'; split; [exact: run | exact: sz'].
Defined.

(** C7, at a failing input.  Three particles at (0,0), (3,4) and (6,8),
    alpha = 0.9 (so two kept slots) and the drawn indices 1, 0, 2.  The
    second drawn index is 0, yet the new slot 1 holds old particle 1, at
    (3,4), not a copy of old particle 0, at (0,0): slot 0 was overwritten
    before it was read.  Slots 0 and 1 hold the same object, so the next
    prediction pass moves it twice (noises (0.01, 0.02) and (0.03, 0.04)). *)
Theorem resample_reads_overwritten_slot :
  let ps := [:: 0; 1; 2]%N in
  let u : rat * rat := (1, 1) in
  (ex_draw 3 3 (normalized [seq weight (load w3 a) | a <- ps]) (rng w3)).1
  = [:: 1; 0; 2]%N
  /\ match ex_resample 3 (9%:R / 10%:R) ps w3 with
     | Ok (ps', w') =>
         [&& ps' == [:: 1; 1; 3]%N,
             state (load w' (nth 0%N ps' 1)) == (3%:R, 4%:R),
             state (load w3 (nth 0%N ps 0)) == (0, 0)
           & match for_each ps' (fun p => ex_predict p u) w' with
             | Ok (_, w'') =>
                 state (load w'' 1%N)
                 == vadd (vadd (vadd (vadd (3%:R, 4%:R) u)
                                     (1 / 100%:R, 2%:R / 100%:R)) u)
                         (3%:R / 100%:R, 4%:R / 100%:R)
             | Raise _ => false
             end]
     | Raise _ => false
     end.
Proof. by split; vm_compute. Qed.

End ExampleFacts.

(** ** Kalman filter: what [predict] and [update] keep *)

Section KalmanInvariants.

Variable F : realFieldType.
Variables n m k : nat.
Variable gesv_singular : 'M[F]_k -> option 'M[F]_k.
Implicit Types (H : 'M[F]_(k, n)) (R : 'M[F]_k) (z : 'cV[F]_k).
Implicit Types (mu : 'cV[F]_n) (Sigma : 'M[F]_n).

Local Notation update := (update gesv_singular).

(** A symmetric PSD matrix that is invertible is positive definite: its
    quadratic form vanishes only at 0. *)
Lemma psd_unit_definite d (M : 'M[F]_d) (x : 'cV[F]_d) :
  psd M -> M \in unitmx -> qform M x = 0 -> x = 0.
Proof.
move=> pM uM /(psd_qform0 pM) Mx0.
by rewrite -[x]mul1mx -(mulVmx uM) -mulmxA Mx0 mulmx0.
Qed.

Lemma kernel_unit d (M : 'M[F]_d) :
  (forall x : 'cV[F]_d, M *m x = 0 -> x = 0) -> M^T \in unitmx.
Proof.
move=> inj; rewrite unitmxE unitfE; apply/negP => /det0P [v v0 vM].
case/negP: v0; rewrite -trmx_eq0; apply/eqP/inj.
by rewrite -[M]trmxK -trmx_mul vM trmx0.
Qed.

(** An invertible measurement-noise covariance makes the residual
    covariance invertible. *)
Lemma residual_unit H R Sigma :
  psd Sigma -> psd R -> R \in unitmx -> H *m Sigma *m H^T + R \in unitmx.
Proof.
move=> pS pR uR; have pHS : psd (H *m Sigma *m H^T) by apply: psd_congr.
have [symS posS] := psd_residual H pS pR.
rewrite -symS; apply: kernel_unit => x Sx0.
apply: (psd_unit_definite pR uR).
have : qform (H *m Sigma *m H^T + R) x = 0 by rewrite /qform -mulmxA Sx0 mulmx0 mxE.
have [_ posH] := pHS; have [_ posR] := pR.
by rewrite qformD => /eqP; rewrite paddr_eq0 ?posH ?posR // => /andP [_ /eqP].
Qed.

(** The covariance that [update] returns, in Joseph form. *)
Lemma joseph_form H R Sigma :
  let S := H *m Sigma *m H^T + R in
  let K := Sigma *m H^T *m invmx S in
  S \in unitmx ->
  Sigma - K *m H *m Sigma
  = (1%:M - K *m H) *m Sigma *m (1%:M - K *m H)^T + K *m R *m K^T.
Proof.
move=> S K uS.
have KS : K *m S = Sigma *m H^T by rewrite /K mulmxKV.
have -> : K *m R *m K^T = Sigma *m H^T *m K^T - K *m H *m Sigma *m H^T *m K^T.
  by rewrite -KS /S mulmxDr mulmxDl !mulmxA addrC addKr.
rewrite linearB /= trmx1 trmx_mul mulmxBl mul1mx !mulmxBr mulmx1 !mulmxA.
by rewrite !mulmxBl subrK.
Qed.


(** X1.  [predict] keeps covariances symmetric PSD. *)
Theorem predict_psd (A : 'M[F]_n) (B : 'M[F]_(n, m)) (Q : 'M[F]_n)
    mu (u : 'cV[F]_m) Sigma :
  psd Sigma -> psd Q -> psd (predict A B Q mu u Sigma).2.
Proof. by move=> pS pQ; apply: psdD => //; apply: psd_congr. Qed.

(** X2.  [update] keeps covariances symmetric PSD: when it returns, the new
    covariance is (I - K H) Sigma (I - K H)^T + K R K^T. *)
Theorem update_psd H R z mu Sigma :
  psd Sigma -> psd R -> H *m Sigma *m H^T + R \in unitmx ->
  exists mu' Sigma',
    update H R z mu Sigma = Ok (mu', Sigma') /\ psd Sigma'.
Proof.
move=> pS pR uS; rewrite updateE //; do 2!eexists; split; first by [].
by rewrite joseph_form //; apply: psdD; apply: psd_congr.
Qed.



End KalmanInvariants.

(** ** The identity model with diagonal covariances (the notebook's setup) *)

Section Diagonal.

Variable F : realFieldType.
Variable n : nat.
Variable gesv_singular : 'M[F]_n -> option 'M[F]_n.
Implicit Types (d r : 'rV[F]_n) (z mu : 'cV[F]_n).

Local Notation update := (update gesv_singular).

Lemma diag_mxM d r :
  diag_mx d *m diag_mx r = diag_mx (\row_j (d 0 j * r 0 j)).
Proof.
apply/matrixP => i j; rewrite mul_diag_mx !mxE.
by case: (i == j); rewrite ?mulr0n ?mulr1n ?mulr0.
Qed.

Lemma diag_mxD d r : diag_mx d + diag_mx r = diag_mx (d + r).
Proof. by rewrite raddfD. Qed.

Lemma diag_mx_inv d :
  (forall j, d 0 j != 0) ->
  diag_mx d \in unitmx /\ invmx (diag_mx d) = diag_mx (\row_j (d 0 j)^-1).
Proof.
move=> d0; have VD : diag_mx (\row_j (d 0 j)^-1) *m diag_mx d = 1%:M.
  rewrite diag_mxM -diag_const_mx; congr diag_mx; apply/rowP => j.
  by rewrite !mxE mulVf.
have [_ uD] := mulmx1_unit VD; split=> //.
by rewrite -[LHS]mul1mx -VD -mulmxA mulmxV // mulmx1.
Qed.

(** X5.  With H = I and diagonal covariances diag(d) and diag(r), [update]
    acts on each coordinate as the scalar filter: gain d_i / (d_i + r_i),
    mean mu_i + gain_i (z_i - mu_i), variance d_i r_i / (d_i + r_i). *)
Theorem update_diagonal d r z mu :
  (forall j, d 0 j + r 0 j != 0) ->
  exists mu',
    [/\ update 1%:M (diag_mx r) z mu (diag_mx d)
        = Ok (mu', diag_mx (\row_j (d 0 j * r 0 j / (d 0 j + r 0 j))))
      & forall i, mu' i 0
                  = mu i 0 + d 0 i / (d 0 i + r 0 i) * (z i 0 - mu i 0)].
Proof.
move=> s0.
have SE : 1%:M *m diag_mx d *m 1%:M^T + diag_mx r = diag_mx (d + r).
  by rewrite trmx1 mulmx1 mul1mx diag_mxD.
have s0' j : (d + r) 0 j != 0 by rewrite mxE.
have [uS iS] := diag_mx_inv s0'.
rewrite updateE SE // iS trmx1 !mulmx1 mul1mx !diag_mxM.
set K := diag_mx _.
exists (mu + K *m (z - mu)); split; last first.
  by move=> i; rewrite mxE mul_diag_mx !mxE.
congr (Ok (_, _)); rewrite -raddfB /=; congr diag_mx; apply/rowP => j.
rewrite !mxE; have := s0 j; move: (d 0 j) (r 0 j) => a b ab0.
by field.
Qed.

End Diagonal.

(** ** The loop of the Kalman notebook *)

Section KalmanLoopFacts.

Import KalmanRun.

Variable F : realFieldType.
Variable G : Type.
Variable np_random_normal : F -> F -> G -> F * G.
Variable gesv_singular : 'M[F]_2 -> option 'M[F]_2.
Variables (A B Q H R : 'M[F]_2).
Variables (sx sy : F).
Variable ground_truth_x : seq F.

Local Notation iteration :=
  (kalman_iteration np_random_normal gesv_singular A B Q H R sx sy
     ground_truth_x).
Local Notation run :=
  (kalman_run np_random_normal gesv_singular A B Q H R sx sy ground_truth_x).

Lemma py_range_pred (c : nat) : py_range (c%:Z - 1) = iota 0 c.-1.
Proof.
by case: c => [|c]; rewrite ?sub0r -?NegzE // -[c.+1]addn1 PoszD addrK addn1.
Qed.

Lemma range_in_truth (truth : seq F) (num_data : nat) :
  (num_data <= size truth)%N ->
  all (fun i => (i.+1 < size truth)%N) (iota 0 num_data.-1).
Proof.
move=> le_t; apply/allP => i; rewrite mem_iota add0n /= => lt_i.
by apply: leq_trans le_t; case: num_data lt_i.
Qed.

Lemma array22_scalar (a : F) : array22 a 0 0 a = a%:M.
Proof.
apply/matrixP => i j; rewrite !mxE.
by case: i j => [[|[|i]] ?] [[|[|j]] ?] //=; rewrite ?mulr1n ?mulr0n.
Qed.

Lemma array22_diag (a b : F) :
  array22 a 0 0 b = diag_mx (\row_j (if j == 0 then a else b)).
Proof.
apply/matrixP => i j; rewrite !mxE.
by case: i j => [[|[|i]] ?] [[|[|j]] ?] //=; rewrite ?mulr1n ?mulr0n.
Qed.

Lemma psd_array22 (a b : F) : 0 <= a -> 0 <= b -> psd (array22 a 0 0 b).
Proof.
move=> a0 b0; rewrite array22_diag; split.
  by rewrite /symmetric tr_diag_mx.
move=> x; rewrite /qform mxE; apply: sumr_ge0 => i _.
rewrite mul_mx_diag !mxE mulrAC -expr2.
by rewrite mulr_ge0 ?sqr_ge0 //; case: ifP.
Qed.

Lemma unit_array22 (a b : F) :
  a != 0 -> b != 0 -> array22 a 0 0 b \in unitmx.
Proof.
move=> a0 b0; rewrite array22_diag unitmxE det_diag unitfE.
by rewrite big_ord_recl big_ord1 !mxE /= mulf_neq0.
Qed.

Lemma iteration_ok i (st : run_state F G) :
  psd (Sigma_current st) -> psd Q -> psd R -> R \in unitmx ->
  0 <= sx -> 0 <= sy -> (i.+1 < size ground_truth_x)%N ->
  exists st',
    [/\ iteration i st = Ok st',
        Sigma_current st' = riccati A Q H R (Sigma_current st),
        psd (Sigma_current st'),
        size (filtered_mus st') = (size (filtered_mus st)).+1
        /\ size (measurements st') = (size (measurements st)).+1
      & forall x, last x (filtered_mus st') = mu_current st'].
Proof.
move=> pS pQ pR uR sx0 sy0 lt_i; rewrite /kalman_iteration /normal /=.
rewrite !ltNge sx0 sy0 /=.
case: (np_random_normal 0 sx _) => nx g1; case: (np_random_normal 0 sy _) => ny g2.
rewrite /py_getitem /= lt_i.
set P := A *m Sigma_current st *m A^T + Q.
have pP : psd P by apply: psdD => //; apply: psd_congr.
have uS := residual_unit H pP pR uR.
rewrite updateE //; eexists; split; first by []; rewrite /= ?size_rcons //.
- by rewrite joseph_form //; apply: psdD; apply: psd_congr.
- by move=> x; rewrite last_rcons.
Qed.

Lemma loop_ok js (st : run_state F G) :
  psd (Sigma_current st) -> psd Q -> psd R -> R \in unitmx ->
  0 <= sx -> 0 <= sy ->
  all (fun i => (i.+1 < size ground_truth_x)%N) js ->
  exists st',
    [/\ for_result js iteration st = Ok st',
        Sigma_current st' = iter (size js) (riccati A Q H R) (Sigma_current st),
        psd (Sigma_current st'),
        size (filtered_mus st') = (size (filtered_mus st) + size js)%N
        /\ size (measurements st') = (size (measurements st) + size js)%N
      & js = [::] \/ forall x, last x (filtered_mus st') = mu_current st'].
Proof.
move=> + pQ pR uR sx0 sy0; elim: js st => [|j js IH] st pS /=.
  by move=> _; exists st; split; rewrite ?addn0 //; left.
case/andP=> lt_j js_ok.
have [st1 [-> S1 pS1 [sz1 sz1'] l1]] := iteration_ok pS pQ pR uR sx0 sy0 lt_j.
have [st2 [run2 S2 pS2 [sz2 sz2'] l2]] := IH st1 pS1 js_ok.
exists st2; split=> //.
- by rewrite S2 S1 -iterSr.
- by rewrite sz2 sz1 sz2' sz1' !addSnnS.
right; case: l2 => [js0|//].
by move: run2; rewrite js0 /= => -[<-].
Qed.


(** X7.  A negative noise scale stops the loop in its first iteration:
    with at least two data points the run raises ValueError, from
    [np.random.normal], before any measurement is taken. *)
Theorem kalman_run_negative_scale mu_0 Sigma_0 (num_data : nat) g :
  (1 < num_data)%N -> (sx < 0) || (0 <= sx) && (sy < 0) ->
  run mu_0 Sigma_0 num_data g = Raise ValueError.
Proof.
move=> gt1 neg; rewrite /kalman_run py_range_pred.
case: num_data gt1 => [|[|n]] // _; rewrite /= /kalman_iteration /normal /=.
case/orP: neg => [->//|/andP[sx0 ->]]; rewrite ltNge sx0 /=.
by case: (np_random_normal 0 sx g).
Qed.

(** X8.  With fewer than [num_data] ground-truth entries (and otherwise
    the conditions under which the filter steps succeed) the loop raises
    IndexError, from [ground_truth_x[i+1]]. *)
Theorem kalman_run_short_truth mu_0 Sigma_0 (num_data : nat) g :
  psd Sigma_0 -> psd Q -> psd R -> R \in unitmx ->
  0 <= sx -> 0 <= sy -> (size ground_truth_x < num_data)%N ->
  (1 < num_data)%N ->
  run mu_0 Sigma_0 num_data g = Raise IndexError.
Proof.
move=> pS pQ pR uR sx0 sy0 lt_n gt1; rewrite /kalman_run py_range_pred.
set s := size ground_truth_x in lt_n *.
have lt : (s.-1 < num_data.-1)%N.
  by case: (s) (num_data) lt_n gt1 => [|k] [|[|n]].
have pos : (0 < num_data.-1 - s.-1)%N by rewrite subn_gt0.
have -> : iota 0 num_data.-1
    = iota 0 s.-1 ++ s.-1 :: iota s.-1.+1 (num_data.-1 - s.-1).-1.
  rewrite -{1}(subnKC (ltnW lt)) iotaD add0n; congr (_ ++ _).
  by case: (_ - _)%N pos.
have fr js js' (st : run_state F G) st' :
    for_result js iteration st = Ok st' ->
    for_result (js ++ js') iteration st = for_result js' iteration st'.
  elim: js st => [|j js IH] st /=; first by case=> ->.
  by case: (iteration j st) => // st1; apply: IH.
have [st [run1 _ pS' _ _]] :=
  loop_ok (st := RunState mu_0 Sigma_0 [::] [::] g) pS pQ pR uR sx0 sy0
    (range_in_truth (leqnn s)).
rewrite (fr _ _ _ _ run1) /= /kalman_iteration /normal /= !ltNge sx0 sy0 /=.
case: (np_random_normal 0 sx _) => nx g1; case: (np_random_normal 0 sy _) => ny g2.
rewrite /py_getitem /=.
by rewrite -/s; case: (s) => [|k] //=; rewrite ltnn.
Qed.

End KalmanLoopFacts.

Section KalmanCovarianceFacts.

Import KalmanRun.

Variable F : realFieldType.
Variable G : Type.
Variable gesv_singular : 'M[F]_2 -> option 'M[F]_2.
Variables (A Q H R : 'M[F]_2).

(** X9.  The covariance that the loop ends with does not depend on the
    measurements: two runs that differ in the random draws, the noise
    scales, the ground truth, the control matrix and the initial mean end
    with the same covariance, [num_data - 1] steps of the covariance
    recursion from Sigma_0. *)
Theorem kalman_covariance_data_free
    (normal normal' : F -> F -> G -> F * G) (B B' : 'M[F]_2)
    (sx sy sx' sy' : F) (truth truth' : seq F) (mu_0 mu_0' : 'cV[F]_2)
    (Sigma_0 : 'M[F]_2) (num_data : nat) (g g' : G) :
  psd Sigma_0 -> psd Q -> psd R -> R \in unitmx ->
  [&& 0 <= sx, 0 <= sy, 0 <= sx' & 0 <= sy'] ->
  (num_data <= size truth)%N -> (num_data <= size truth')%N ->
  exists st st',
    [/\ kalman_run normal gesv_singular A B Q H R sx sy truth mu_0 Sigma_0
          num_data g = Ok st,
        kalman_run normal' gesv_singular A B' Q H R sx' sy' truth' mu_0' Sigma_0
          num_data g' = Ok st',
        Sigma_current st = iter num_data.-1 (riccati A Q H R) Sigma_0
      & Sigma_current st' = Sigma_current st].
Proof.
move=> pS pQ pR uR /and4P[sx0 sy0 sx0' sy0'] le_n le_n'.
rewrite /kalman_run py_range_pred.
have [st [-> S1 _ _ _]] :=
  loop_ok normal gesv_singular A B H
    (st := RunState mu_0 Sigma_0 [::] [::] g) pS pQ pR uR sx0 sy0 (range_in_truth le_n).
have [st' [-> S2 _ _ _]] :=
  loop_ok normal' gesv_singular A B' H
    (st := RunState mu_0' Sigma_0 [::] [::] g') pS pQ pR uR sx0' sy0' (range_in_truth le_n').
by exists st, st'; split=> //; rewrite S1 ?S2 size_iota.
Qed.

End KalmanCovarianceFacts.

Section NotebookFacts.

Import KalmanRun.

Variable F : realFieldType.
Variable G : Type.
Variable np_random_normal : F -> F -> G -> F * G.
Variable gesv_singular : 'M[F]_2 -> option 'M[F]_2.
Variable ground_truth_x : seq F.

(** X10.  The main cell as it is written (Sigma_0 = 0.1 I, A = B = H = I,
    Q = 0.3 I, R = diag(0.75, 0.6), ten data points) runs to the end for
    every sequence of random draws and every ground truth of at least ten
    entries: nine measurements and nine filtered means are stored and the
    final covariance is symmetric PSD. *)
Theorem main_cell_completes (g : G) :
  (KalmanNotebook.num_data <= size ground_truth_x)%N ->
  exists st,
    [/\ KalmanNotebook.main_cell np_random_normal gesv_singular
          ground_truth_x g = Ok st,
        size (filtered_mus st) = 9,
        size (measurements st) = 9
      & psd (Sigma_current st)].
Proof.
move=> le_n; rewrite /KalmanNotebook.main_cell.
have p10 : 0 <= 1 / 10%:R :> F by rewrite divr_ge0 ?ler01 ?ler0n.
have p3 : 0 <= 3%:R / 10%:R :> F by rewrite divr_ge0 ?ler0n.
have px : 0 < KalmanNotebook.measurement_noise_x_var F.
  by rewrite /KalmanNotebook.measurement_noise_x_var divr_gt0 ?ltr0n.
have py : 0 < KalmanNotebook.measurement_noise_y_var F.
  by rewrite /KalmanNotebook.measurement_noise_y_var divr_gt0 ?ltr0n.
rewrite /kalman_run py_range_pred.
have [st [-> _ pS [sz sz'] _]] :=
  loop_ok np_random_normal gesv_singular (KalmanNotebook.A F)
    (KalmanNotebook.B F) (KalmanNotebook.H F)
    (st := RunState (KalmanNotebook.mu_0 F) (KalmanNotebook.Sigma_0 F) [::] [::] g)
    (psd_array22 p10 p10) (psd_array22 p3 p3)
    (psd_array22 (ltW px) (ltW py))
    (unit_array22 (lt0r_neq0 px) (lt0r_neq0 py)) (ltW px) (ltW py)
    (range_in_truth le_n).
by exists st.
Qed.

End NotebookFacts.

(** ** The passes of the particle-filter notebook *)

Section ParticleRunFacts.

Import ParticleRun.

Variable F : archiRealFieldType.
Variable G : Type.
Variable np_random_normal : F -> F -> G -> (F * F) * G.
Variable np_random_normal_scalar : F -> F -> G -> F * G.
Variable np_random_uniform : F -> F -> G -> F * G.
Variable np_random_draw : nat -> nat -> seq (xfloat F) -> G -> seq nat * G.
Variable np_sqrt : F -> F.

Hypothesis np_sqrt0 : np_sqrt 0 = 0.
Hypothesis np_sqrt_gt0 : forall x, 0 < x -> 0 < np_sqrt x.
Hypothesis draw_size :
  forall a sz p g, size (np_random_draw a sz p g).1 = sz.
Hypothesis draw_range :
  forall a sz p g, (0 < a)%N ->
  all (fun i => (i < a)%N) (np_random_draw a sz p g).1.

Local Notation world := (world F G).
Local Notation norm := (np_linalg_norm np_sqrt).
Local Notation resample := (resample np_random_uniform np_random_draw).
Local Notation prior_draws := (prior_draws np_random_uniform).
Local Notation predict_all := (predict_all np_random_normal).
Local Notation update_all := (update_all (G:=G) np_sqrt).
Local Notation normal_draws := (normal_draws np_random_normal).
Local Notation np0 := (no_particle F).

Implicit Types (w : world) (a : addr) (u z : vec F) (ps : seq addr).

(** The addresses of a list all name objects of the heap. *)
Local Notation allocated ps w := (all (fun a => (a < size (heap w))%N) ps).

(** The weight that [Particle.update] assigns to a particle at [s]. *)
Local Notation likelihood z s := (xdiv (Fin 1) (Fin (norm (vsub s z)))).

Lemma vaddA (a b c : vec F) : vadd (vadd a b) c = vadd a (vadd b c).
Proof. by rewrite /vadd /= !addrA. Qed.

Lemma size_normal_draws c g : size (normal_draws c g).1 = c.
Proof.
elim: c g => //= c IH g; case: (np_random_normal 0 (1 / 100) g) => v g1.
by case E: (normal_draws c g1) (IH g1) => [vs g2] /= ->.
Qed.

Lemma size_moves u ps (vs : seq (vec F)) a :
  size vs = size ps -> size (moves u ps vs a) = count_mem a ps.
Proof.
rewrite /moves size_map size_filter.
elim: ps vs => [|p ps IH] [|v vs] //= [sz].
by rewrite IH // [a == p]eq_sym.
Qed.

Lemma predict_all_run u ps w :
  allocated ps w ->
  let nz := normal_draws (size ps) (rng w) in
  exists hp,
    [/\ predict_all u ps w = Ok (tt, World hp nz.2),
        size hp = size (heap w),
        forall a, weight (nth np0 hp a) = weight (load w a)
      & forall a, state (nth np0 hp a)
                  = foldl (@vadd F) (state (load w a)) (moves u ps nz.1 a)].
Proof.
elim: ps w => [|p ps IH] w /=; first by case: w => hp g _; exists hp.
case/andP=> lt_p ps_ok.
have [noise [g' [E run wt sz others]]] := predict_frame np_random_normal u lt_p.
set w1 := World _ g' in run wt sz others.
have ps_ok1 : allocated ps w1 by rewrite sz.
have [hp [run1 sz1 wt1 st1]] := IH w1 ps_ok1.
rewrite E; case D: (normal_draws (size ps) g') run1 st1 => [vs g2] /= run1 st1.
exists hp; split.
- by rewrite /ParticleRun.predict_all /= (bind_ok _ run).
- by rewrite sz1 sz.
- move=> a; rewrite wt1; case: (a =P p) => [->|/eqP ne] //.
  by rewrite others.
move=> a; rewrite st1 /moves /=; case: (p =P a) => [<-|/eqP ne] /=.
  by rewrite /load /= nth_set_nth /= eqxx vaddA.
by rewrite others // eq_sym.
Qed.

Lemma update_all_run z ps w :
  allocated ps w ->
  exists hp,
    [/\ update_all z ps w = Ok (tt, World hp (rng w)),
        size hp = size (heap w)
      & forall a, nth np0 hp a
                  = if a \in ps
                    then mkParticle (state (load w a))
                                    (likelihood z (state (load w a)))
                    else load w a].
Proof.
elim: ps w => [|p ps IH] w /=; first by case: w => hp g _; exists hp.
case/andP=> lt_p ps_ok.
set w1 := World (set_nth np0 (heap w) p
            (mkParticle (state (load w p)) (likelihood z (state (load w p)))))
            (rng w).
have sz : size (heap w1) = size (heap w).
  by rewrite /= size_set_nth; apply/maxn_idPr.
have ps_ok1 : allocated ps w1 by rewrite sz.
have [hp [run1 sz1 ld1]] := IH w1 ps_ok1.
exists hp; split.
- by rewrite /ParticleRun.update_all /= /bind update_run.
- by rewrite sz1 sz.
move=> a; rewrite ld1 in_cons /load /= nth_set_nth /=.
by case: (a =P p) => [->|_] //=; case: ifP.
Qed.

Lemma norm_ge0 (v : vec F) : 0 <= norm v.
Proof.
rewrite /np_linalg_norm.
have : 0 <= v.1 ^+ 2 + v.2 ^+ 2 by rewrite addr_ge0 ?sqr_ge0.
by rewrite le0r => /orP [/eqP ->|/np_sqrt_gt0 /ltW //]; rewrite np_sqrt0.
Qed.

Lemma norm_gt0 (s z : vec F) : s != z -> 0 < norm (vsub s z).
Proof.
by move=> ne; rewrite lt0r norm_ge0 norm_eq0 // vsub_eq0 ne.
Qed.


Lemma size_prior_draws c g : size (prior_draws c g).1 = c.
Proof.
elim: c g => //= c IH g; case: (np_random_uniform 0 10 g) => x g1.
case: (np_random_uniform 0 10 g1) => y g2.
by case E: (prior_draws c g2) (IH g2) => [vs g3] /= ->.
Qed.

(** What a successful resampling step leaves behind. *)
Lemma resample_shape (n : nat) alpha ps w :
  0 <= alpha <= 1 -> size ps = n -> allocated ps w ->
  valid_p n (normalized [seq weight (load w a) | a <- ps]) ->
  let K := `|Num.floor (n%:R * alpha)|%N in
  exists ps' w',
    [/\ resample n alpha ps w = Ok (ps', w'),
        size ps' = n,
        allocated ps' w',
        size (heap w') = (size (heap w) + (n - K))%N
      & forall a, (a < size (heap w))%N -> load w' a = load w a].
Proof.
move=> a01 sz_ps ps_ok ok K; have [kE leK] := kept_count n a01.
pose d := np_random_draw n n
  (normalized [seq weight (load w a) | a <- ps]) (rng w).
have sz_idx : size d.1 = n by rewrite draw_size.
have idx_ok : all (fun i => (i < size ps)%N) d.1.
  by rewrite sz_ps draw_range // (valid_p_gt0 ok).
have js_ok : all (fun j => (j < size ps)%N) (iota 0 K).
  by apply/allP => j; rewrite mem_iota add0n sz_ps /= => /leq_trans; apply.
have sz_keep : size (keep d.1 ps (iota 0 K)) = n by rewrite size_keep.
have sz_take : size (take K (keep d.1 ps (iota 0 K))) = K.
  by rewrite size_takel // sz_keep.
have le1 : (K <= size d.1)%N by rewrite sz_idx.
have le2 : (K <= size ps)%N by rewrite sz_ps.
have [kept _] := keep_slots le1 le2 idx_ok.
rewrite (resample_run np_random_uniform draw_size draw_range) //.
do 2!eexists; split; first by [].
- by rewrite size_cat sz_take size_iota subnKC.
- rewrite all_cat /= size_cat size_map size_prior_draws; apply/andP; split.
    apply/(all_nthP 0%N) => j; rewrite sz_take => lt_j.
    rewrite nth_take //; have [i i_idx ->] := kept j lt_j.
    apply: leq_trans (leq_addr _ _).
    by move/allP: ps_ok; apply; apply: mem_nth; move/allP: idx_ok; apply.
  by apply/allP => a; rewrite mem_iota => /andP [].
- by rewrite /= size_cat size_map size_prior_draws.
- by move=> a lt_a; rewrite /load /= nth_cat lt_a.
Qed.

Lemma weights_after_update z ps w hp (g : G) :
  (forall a, nth np0 hp a
             = if a \in ps
               then mkParticle (state (load w a))
                               (likelihood z (state (load w a)))
               else load w a) ->
  [seq weight (load (World hp g) a) | a <- ps]
  = [seq likelihood z (state (load w a)) | a <- ps].
Proof. by move=> ld; apply/eq_in_map => a a_ps; rewrite /load /= ld a_ps. Qed.

(** X11.  A predict pass over a list of allocated particles never raises
    and moves an object once for every slot that holds it: its state is
    displaced by u_t plus a noise of its own at each of these slots.  The
    weights and the number of objects are unchanged. *)
Theorem predict_pass_moves u ps w :
  allocated ps w ->
  let nz := normal_draws (size ps) (rng w) in
  exists w',
    [/\ predict_all u ps w = Ok (tt, w'),
        rng w' = nz.2 /\ size (heap w') = size (heap w),
        forall a, weight (load w' a) = weight (load w a),
        forall a, state (load w' a)
                  = foldl (@vadd F) (state (load w a)) (moves u ps nz.1 a)
      & forall a, size (moves u ps nz.1 a) = count_mem a ps].
Proof.
move=> ps_ok nz; have [hp [run sz wt st]] := predict_all_run u ps_ok.
exists (World hp nz.2); split=> // a.
by rewrite size_moves // size_normal_draws.
Qed.

(** X12.  An update pass over a list of allocated particles never raises:
    every listed particle gets the weight 1 / ||state - z_t|| of its own
    state, no state changes, no random number is drawn and the objects that
    are not listed are left as they were. *)
Theorem update_pass_weights z ps w :
  allocated ps w ->
  exists w',
    [/\ update_all z ps w = Ok (tt, w'),
        rng w' = rng w /\ size (heap w') = size (heap w),
        forall a, state (load w' a) = state (load w a),
        forall a, a \in ps ->
          weight (load w' a) = likelihood z (state (load w a))
      & forall a, a \notin ps -> load w' a = load w a].
Proof.
move=> ps_ok; have [hp [run sz ld]] := update_all_run z ps_ok.
exists (World hp (rng w)); split=> // a.
- by rewrite /load /= ld; case: ifP.
- by move=> a_ps; rewrite {1}/load /= ld a_ps.
- by move=> /negbTE a_ps; rewrite {1}/load /= ld a_ps.
Qed.

(** X13.  The update pass is idempotent: a second pass with the same
    measurement changes nothing. *)
Theorem update_pass_idempotent z ps w :
  allocated ps w ->
  exists w',
    update_all z ps w = Ok (tt, w') /\ update_all z ps w' = Ok (tt, w').
Proof.
move=> ps_ok; have [hp [run sz ld]] := update_all_run z ps_ok.
exists (World hp (rng w)); split=> //.
have ps_ok1 : allocated ps (World hp (rng w)) by rewrite /= sz.
have [hp' [-> sz' ld']] := update_all_run z ps_ok1.
suff -> : hp' = hp by [].
apply: (@eq_from_nth _ np0) => [|a _]; first by rewrite sz'.
have ldE : load (World hp (rng w)) a = nth np0 hp a by [].
by rewrite ld' [RHS]ld; case: ifP => a_ps; rewrite ldE ld a_ps.
Qed.

(** X14.  Update pass followed by resampling.  When the list is not empty
    and no listed particle sits exactly at the measurement, the two steps
    succeed: the list keeps its [n] slots, all of them allocated, and
    [n - floor (n * alpha)] new objects have been created. *)
Theorem update_resample_succeeds z (n : nat) alpha ps w :
  allocated ps w -> 0 <= alpha <= 1 -> size ps = n -> (0 < n)%N ->
  all (fun a => state (load w a) != z) ps ->
  exists ps' w',
    [/\ bind (update_all z ps) (fun _ => resample n alpha ps) w
        = Ok (ps', w'),
        size ps' = n,
        allocated ps' w'
      & size (heap w')
        = (size (heap w) + (n - `|Num.floor (n%:R * alpha)|))%N].
Proof.
move=> ps_ok a01 sz_ps n_gt0 far.
have [hp [run sz ld]] := update_all_run z ps_ok.
set w1 := World hp (rng w) in run.
have ps_ok1 : allocated ps w1 by rewrite /= sz.
pose xs := [seq 1 / norm (vsub (state (load w a)) z) | a <- ps].
have wE : [seq weight (load w1 a) | a <- ps] = [seq Fin x | x <- xs].
  rewrite (weights_after_update _ ld) /xs -map_comp; apply/eq_in_map => a a_ps.
  by rewrite xdiv_Fin // gt_eqF // norm_gt0 // (allP far).
have xs_gt0 : all (fun x => 0 < x) xs.
  rewrite all_map; apply/allP => a a_ps /=.
  by rewrite divr_gt0 // norm_gt0 // (allP far).
have xs_ge0 : all (fun x => 0 <= x) xs.
  by apply: sub_all xs_gt0 => x /ltW.
have sum_ne0 : \sum_(x <- xs) x != 0.
  have sz_xs : (0 < size xs)%N by rewrite size_map sz_ps.
  case: xs xs_gt0 xs_ge0 sz_xs {wE} => // x xs' /= /andP [x0 _] /andP [_ ge0] _.
  rewrite big_cons gt_eqF // ltr_wpDr //.
  by rewrite big_seq sumr_ge0 // => y /(allP ge0).
have ok : valid_p n (normalized [seq weight (load w1 a) | a <- ps]).
  by rewrite wE -sz_ps -(size_map (fun a => 1 / norm (vsub (state (load w a)) z)));
     apply: normalized_valid.
have [ps' [w' [run' sz' ok' hsz _]]] := resample_shape a01 sz_ps ps_ok1 ok.
by exists ps', w'; split=> //; rewrite ?(bind_ok _ run) // hsz /= sz.
Qed.

(** X15.  When a listed particle sits exactly at the measurement, its
    weight is infinite, the normalised weights are not a probability vector
    and the resampling that follows the update pass raises ValueError. *)
Theorem update_resample_raises z (n : nat) alpha ps w :
  allocated ps w -> has (fun a => state (load w a) == z) ps ->
  bind (update_all z ps) (fun _ => resample n alpha ps) w = Raise ValueError.
Proof.
move=> ps_ok hit; have [hp [run sz ld]] := update_all_run z ps_ok.
rewrite (bind_ok _ run); apply: resample_invalid; apply: degenerate_invalid.
rewrite (weights_after_update _ ld).
have : ~~ is_finite (np_sum [seq likelihood z (state (load w a)) | a <- ps]).
  rewrite np_sum_finite -has_predC has_map; apply: sub_has hit => a /eqP E.
  change (~~ is_finite (likelihood z (state (load w a)))).
  by rewrite E (xdiv_norm_self np_sqrt0 np_sqrt_gt0).
by case: (np_sum _).
Qed.


(** *** The state estimate *)

Lemma py_int_small (x : F) : `|x| < 1 -> py_int x = 0.
Proof.
rewrite ltr_norml /py_int => /andP [lo hi]; case: ifP => x0; apply/eqP.
  by rewrite eq_le floor_le0 hi floor_ge0 x0.
rewrite eq_le ceil_le0 ceil_ge0 lo andbT.
by move/negbT: x0; rewrite -ltNge => /ltW.
Qed.

Lemma py_int_pos (x : F) :
  0 <= x -> py_int x = Posz `|Num.floor x|%N.
Proof. by move=> x0; rewrite /py_int x0 gez0_abs // floor_ge0. Qed.

Lemma np_mean_bounds (xs : seq F) (lo hi : F) :
  (0 < size xs)%N -> all (fun x => lo <= x <= hi) xs ->
  exists2 m, np_mean xs = Fin m & lo <= m <= hi.
Proof.
move=> sz_gt0 bounds; exists ((\sum_(x <- xs) x) / (size xs)%:R).
  by rewrite /np_mean xdiv_Fin // pnatr_eq0 -lt0n.
have n_gt0 : 0 < (size xs)%:R :> F by rewrite ltr0n.
rewrite ler_pdivlMr // ler_pdivrMr // !mulr_natr.
have cst (c : F) : c *+ size xs = \sum_(x <- xs) c.
  by rewrite big_const_seq count_predT iter_addr_0.
rewrite !cst !big_seq; apply/andP; split; apply: ler_sum => x /(allP bounds).
  by case/andP.
by case/andP.
Qed.

(** X16.  The state estimate is the mean of the first floor (n * alpha)
    slots: when that slice is not empty, both coordinates are finite and lie
    within any box that contains the states of its particles. *)
Theorem estimate_bounds (n : nat) alpha ps w (lo hi : vec F) :
  1 <= n%:R * alpha -> (0 < size ps)%N ->
  all (fun a => (lo.1 <= (state (load w a)).1 <= hi.1)
                && (lo.2 <= (state (load w a)).2 <= hi.2))
      (take `|Num.floor (n%:R * alpha)| ps) ->
  exists mx my,
    [/\ estimate n alpha ps w = Ok ((Fin mx, Fin my), w),
        lo.1 <= mx <= hi.1
      & lo.2 <= my <= hi.2].
Proof.
move=> x1 sz_ps box; rewrite /estimate py_int_pos ?(le_trans ler01) //=.
set kept := take _ ps in box *.
have sz_kept : (0 < size kept)%N.
  rewrite size_take; case: ifP => // _.
  by rewrite absz_gt0 gt_eqF // floor_gt0.
have [||mx -> bx] := @np_mean_bounds [seq (state (load w p)).1 | p <- kept]
                       lo.1 hi.1.
- by rewrite size_map.
- by rewrite all_map; apply: sub_all box => a /andP [].
have [||my -> by_] := @np_mean_bounds [seq (state (load w p)).2 | p <- kept]
                        lo.2 hi.2.
- by rewrite size_map.
- by rewrite all_map; apply: sub_all box => a /andP [].
by exists mx, my.
Qed.

(** X17.  When |n * alpha| < 1 the slice of kept particles is empty and
    the estimate is (nan, nan): [np.mean] of an empty list. *)
Theorem estimate_no_kept (n : nat) alpha ps w :
  `|n%:R * alpha| < 1 -> estimate n alpha ps w = Ok ((NaN, NaN), w).
Proof.
move=> small; rewrite /estimate py_int_small //= take0 /= /np_mean.
by rewrite big_nil /= eqxx.
Qed.

(** *** Resampling at the ends of the range of alpha, and beyond *)

(** X18.  With alpha = 1 the resampling step creates no object: the list
    is the result of the first loop alone and the heap is unchanged.  With
    alpha = 0 it keeps no particle: every slot holds a new object. *)
Theorem resample_extremes (n : nat) ps w :
  size ps = n ->
  let p := normalized [seq weight (load w a) | a <- ps] in
  valid_p n p ->
  let d := np_random_draw n n p (rng w) in
  resample n 1 ps w = Ok (keep d.1 ps (iota 0 n), World (heap w) d.2)
  /\ resample n 0 ps w
     = Ok (iota (size (heap w)) n,
           World (heap w ++ fresh (prior_draws n d.2).1) (prior_draws n d.2).2).
Proof.
move=> sz_ps p ok d.
have idx_ok : all (fun i => (i < size ps)%N) d.1.
  by rewrite sz_ps draw_range // (valid_p_gt0 ok).
have js_ok : all (fun j => (j < size ps)%N) (iota 0 n).
  by apply/allP => j; rewrite mem_iota add0n sz_ps /= => /leq_trans; apply.
have sz_keep : size (keep d.1 ps (iota 0 n)) = n by rewrite size_keep.
split; rewrite (resample_run np_random_uniform draw_size draw_range) //;
  rewrite ?lexx ?ler01 //.
  rewrite mulr1 pmulrn intrKfloor absz_nat subnn /= cats0 /fresh /= cats0.
  by rewrite take_oversize ?sz_keep.
by rewrite mulr0 floor0 absz0 subn0 take0.
Qed.

Lemma for_acc_cat (A : Type) (js js' : seq nat) (body : nat -> A -> M F G A)
    (acc : A) w :
  for_acc (js ++ js') body acc w
  = bind (for_acc js body acc) (for_acc js' body) w.
Proof.
elim: js acc w => [|j js IH] acc w //=.
by rewrite /bind; case: (body j acc w) => // -[acc1 w1]; rewrite IH.
Qed.

(** X19.  A diversity fraction above 1 that asks for more kept particles
    than there are indices makes the first loop read [indexes[n]]: the
    step raises IndexError. *)
Theorem resample_alpha_above_one (n : nat) alpha ps w :
  size ps = n ->
  valid_p n (normalized [seq weight (load w a) | a <- ps]) ->
  n.+1%:R <= n%:R * alpha ->
  resample n alpha ps w = Raise IndexError.
Proof.
move=> sz_ps ok big.
set p := normalized _ in ok; pose d := np_random_draw n n p (rng w).
have sz_idx : size d.1 = n by rewrite draw_size.
have idx_ok : all (fun i => (i < size ps)%N) d.1.
  by rewrite sz_ps draw_range // (valid_p_gt0 ok).
have x0 : 0 <= n%:R * alpha by apply: le_trans big; rewrite ler0n.
have ltK : (n < `|Num.floor (n%:R * alpha)|)%N.
  by rewrite -ltz_nat gez0_abs ?floor_ge0 // -lezD1 floor_ge_int -PoszD addn1
             -pmulrn.
have chE : np_random_choice np_random_draw n n p w
           = Ok (d.1, World (heap w) d.2).
  by rewrite /np_random_choice ok /random -/d; case: (d).
rewrite /ParticleFilter.resample.
rewrite (@bind_ok _ _ _ _ _ _ w [seq weight (load w a) | a <- ps] w) //.
rewrite (bind_ok _ chE) py_int_pos // /py_range.
rewrite -(subnKC (ltnW ltK)) iotaD add0n.
have lt1 : (0 + n <= size d.1)%N by rewrite add0n sz_idx.
have lt2 : (0 + n <= size ps)%N by rewrite add0n sz_ps.
rewrite /bind for_acc_cat (bind_ok _ (keep_loop _ lt1 lt2 idx_ok)).
case: (_ - n)%N (subn_gt0 n `|Num.floor (n%:R * alpha)|) => [|c _].
  by rewrite ltK.
by rewrite /= /bind /lift /py_getitem /= sz_idx ltnn.
Qed.

(** *** The initial particles *)

(** X20.  Sampling the initial particles never raises: it creates [n]
    new objects at consecutive addresses, each with weight 1 and a state
    drawn from the prior, and leaves the objects of the heap as they were. *)
Theorem sample_initial_fresh (n : nat) w :
  let pr := prior_draws n (rng w) in
  exists w',
    [/\ sample_initial_particles np_random_uniform n w
        = Ok (iota (size (heap w)) n, w'),
        size (heap w') = (size (heap w) + n)%N /\ rng w' = pr.2,
        forall j, (j < n)%N ->
          load w' (size (heap w) + j) = mkParticle (nth (0, 0) pr.1 j) (Fin 1)
      & forall a, (a < size (heap w))%N -> load w' a = load w a].
Proof.
move=> pr; rewrite sample_initial_run; eexists; split; first by [].
- by rewrite /= size_cat size_map size_prior_draws.
- move=> j lt_j; rewrite /load /= nth_cat ltnNge leq_addr /= addKn.
  by rewrite (nth_map (0, 0)) // size_prior_draws.
- by move=> a lt_a; rewrite /load /= nth_cat lt_a.
Qed.

(** *** The loop of the main cell *)

Section MainLoop.

Variables (n : nat) (alpha : F) (u_t : vec F) (sx sy : F).
Variable ground_truth_x : seq F.

Local Notation iteration :=
  (pf_iteration np_random_normal np_random_normal_scalar np_random_uniform
     np_random_draw np_sqrt n alpha u_t sx sy ground_truth_x).
Local Notation run :=
  (pf_run np_random_normal np_random_normal_scalar np_random_uniform
     np_random_draw np_sqrt n alpha u_t sx sy ground_truth_x).
Local Notation normal := (normal np_random_normal_scalar).
Local Notation K := (`|Num.floor (n%:R * alpha)|%N).

(** Every log is [c] entries longer in [lg'] than in [lg]. *)
Local Notation grown c lg lg' :=
  [/\ size (filtered_xs lg') = (size (filtered_xs lg) + c)%N,
      size (filtered_ys lg') = (size (filtered_ys lg) + c)%N,
      size (measurements lg') = (size (measurements lg) + c)%N
    & size (particles_over_time lg') = (size (particles_over_time lg) + c)%N].

Lemma bind_raise (A B : Type) (c : M F G A) (k : A -> M F G B) w e :
  c w = Raise e -> bind c k w = Raise e.
Proof. by rewrite /bind => ->. Qed.

Lemma normal_run (s : F) w :
  0 <= s ->
  normal 0 s w
  = Ok ((np_random_normal_scalar 0 s (rng w)).1,
        World (heap w) (np_random_normal_scalar 0 s (rng w)).2).
Proof.
rewrite /ParticleRun.normal ltNge => -> /=; rewrite /random.
by case: (np_random_normal_scalar 0 s (rng w)).
Qed.

Lemma iteration_outcome i ps (lg : logs F) w :
  0 <= alpha <= 1 -> 0 <= sx -> 0 <= sy ->
  (i.+1 < size ground_truth_x)%N -> size ps = n -> allocated ps w ->
  iteration i (ps, lg) w = Raise ValueError
  \/ exists ps' lg' w',
       [/\ iteration i (ps, lg) w = Ok ((ps', lg'), w'),
           size ps' = n /\ allocated ps' w',
           size (heap w') = (size (heap w) + (n - K))%N
         & grown 1%N lg lg'].
Proof.
move=> a01 sx0 sy0 lt_i sz_ps ps_ok; rewrite /pf_iteration.
have [hp1 [run1 sz1 _ _]] := predict_all_run u_t ps_ok.
rewrite (bind_ok _ run1) (bind_ok _ (normal_run _ sx0)) /=.
rewrite (bind_ok _ (normal_run _ sy0)) /=.
set nx := (np_random_normal_scalar 0 sx _).1.
set g2 := (np_random_normal_scalar 0 sy _).2.
set ny := (np_random_normal_scalar 0 sy _).1.
have gE w0 : lift (py_getitem 0 ground_truth_x i.+1) w0
             = Ok (nth 0 ground_truth_x i.+1, w0) :> result (F * world).
  by rewrite /lift /py_getitem /= lt_i.
rewrite (bind_ok _ (gE _)).
set z := (_ + nx, _ + ny).
have ps_ok2 : allocated ps (World hp1 g2) by rewrite /= sz1.
have [hp2 [run2 sz2 ld2]] := update_all_run z ps_ok2.
rewrite (bind_ok _ run2) /=.
have ps_ok3 : allocated ps (World hp2 g2) by rewrite /= sz2 sz1.
case ok: (valid_p n (normalized [seq weight (load (World hp2 g2) a) | a <- ps])).
  have [ps' [w' [run' sz' ok' hsz _]]] := resample_shape a01 sz_ps ps_ok3 ok.
  right; rewrite (bind_ok _ run').
  rewrite /bind /estimate /deepcopy /ret.
  do 3!eexists; split; first by [].
  - by [].
  - by rewrite hsz /= sz2 sz1.
  - by split; rewrite /= size_rcons addn1.
by left; apply: bind_raise; apply: resample_invalid.
Qed.

Lemma loop_outcome js ps (lg : logs F) w :
  0 <= alpha <= 1 -> 0 <= sx -> 0 <= sy ->
  all (fun i => (i.+1 < size ground_truth_x)%N) js ->
  size ps = n -> allocated ps w ->
  for_acc js iteration (ps, lg) w = Raise ValueError
  \/ exists ps' lg' w',
       [/\ for_acc js iteration (ps, lg) w = Ok ((ps', lg'), w'),
           size ps' = n /\ allocated ps' w',
           size (heap w') = (size (heap w) + size js * (n - K))%N
         & grown (size js) lg lg'].
Proof.
move=> a01 sx0 sy0; elim: js ps lg w => [|j js IH] ps lg w /=.
  move=> _ sz_ps ps_ok; right; exists ps, lg, w.
  by split; rewrite ?addn0 //; split; rewrite addn0.
case/andP=> lt_j js_ok sz_ps ps_ok.
case: (iteration_outcome lg a01 sx0 sy0 lt_j sz_ps ps_ok) => [fail|].
  by left; apply: bind_raise.
case=> ps1 [lg1 [w1 [run1 [sz1 ok1] hsz1 [lx1 ly1 lm1 lp1]]]].
rewrite (bind_ok _ run1).
case: (IH ps1 lg1 w1 js_ok sz1 ok1) => [fail|]; first by left.
case=> ps2 [lg2 [w2 [run2 [sz2 ok2] hsz2 [lx2 ly2 lm2 lp2]]]].
right; exists ps2, lg2, w2; split=> //.
  by rewrite hsz2 hsz1 mulSn addnA.
by split; rewrite ?lx2 ?lx1 ?ly2 ?ly1 ?lm2 ?lm1 ?lp2 ?lp1 -addnA add1n.
Qed.

(** X21.  One iteration of the main loop, for a list of [n] allocated
    particles, a diversity fraction between 0 and 1, non-negative noise
    scales and a ground truth that has entry [i + 1]: the only exception it
    can raise is the ValueError of [np.random.choice]; otherwise the list
    keeps its [n] allocated slots, exactly [n - floor (n * alpha)] objects
    are created, and each of the four logs grows by one entry. *)
Theorem pf_iteration_outcome i ps (lg : logs F) w :
  0 <= alpha <= 1 -> 0 <= sx -> 0 <= sy ->
  (i.+1 < size ground_truth_x)%N -> size ps = n -> allocated ps w ->
  iteration i (ps, lg) w = Raise ValueError
  \/ exists ps' lg' w',
       [/\ iteration i (ps, lg) w = Ok ((ps', lg'), w'),
           size ps' = n /\ allocated ps' w',
           size (heap w') = (size (heap w) + (n - K))%N
         & grown 1%N lg lg'].
Proof. exact: iteration_outcome. Qed.

Lemma run_outcome (num_data : nat) w :
  0 <= alpha <= 1 -> 0 <= sx -> 0 <= sy ->
  (num_data < size ground_truth_x)%N ->
  run num_data w = Raise ValueError
  \/ exists ps lg w',
       [/\ run num_data w = Ok ((ps, lg), w'),
           size ps = n /\ allocated ps w',
           size (heap w') = (size (heap w) + n + num_data * (n - K))%N
         & [/\ size (filtered_xs lg) = num_data,
               size (filtered_ys lg) = num_data,
               size (measurements lg) = num_data
             & size (particles_over_time lg) = num_data]].
Proof.
move=> a01 sx0 sy0 lt_n; rewrite /pf_run.
rewrite (bind_ok _ (sample_initial_run np_random_uniform n w)) /py_range.
set w0 := World _ _; set ps0 := iota _ n.
have sz0 : size (heap w0) = (size (heap w) + n)%N.
  by rewrite /= size_cat size_map size_prior_draws.
have ps_ok : allocated ps0 w0.
  by apply/allP => a; rewrite mem_iota sz0 => /andP [].
have js_ok : all (fun i => (i.+1 < size ground_truth_x)%N) (iota 0 num_data).
  apply/allP => i; rewrite mem_iota add0n /= => lt_i.
  exact: leq_ltn_trans lt_n.
have sz_ps0 : size ps0 = n by rewrite size_iota.
case: (loop_outcome (Logs [::] [::] [::] [::]) a01 sx0 sy0 js_ok sz_ps0 ps_ok).
  by left.
case=> ps [lg [w' [run' [sz ok] hsz [lx ly lm lp]]]].
right; exists ps, lg, w'; split=> //; first by rewrite hsz sz0 size_iota.
by split; rewrite ?lx ?ly ?lm ?lp size_iota.
Qed.

(** X22.  The whole main cell, under the same conditions and with a ground
    truth of more than [num_data] entries: it either raises the ValueError
    of [np.random.choice] or ends with [n] allocated particles, [num_data]
    entries in each log, and [n + num_data * (n - floor (n * alpha))] objects
    created in all. *)
Theorem pf_run_outcome (num_data : nat) w :
  0 <= alpha <= 1 -> 0 <= sx -> 0 <= sy ->
  (num_data < size ground_truth_x)%N ->
  run num_data w = Raise ValueError
  \/ exists ps lg w',
       [/\ run num_data w = Ok ((ps, lg), w'),
           size ps = n /\ allocated ps w',
           size (heap w') = (size (heap w) + n + num_data * (n - K))%N
         & [/\ size (filtered_xs lg) = num_data,
               size (filtered_ys lg) = num_data,
               size (measurements lg) = num_data
             & size (particles_over_time lg) = num_data]].
Proof. exact: run_outcome. Qed.

End MainLoop.

(** X23.  The main cell as it is written (1000 particles, alpha = 0.9,
    100 data points, noise scales 0.5) either raises the ValueError of
    [np.random.choice] or ends with 1000 particles and 100 entries in each
    log, having created 1000 + 100 * 100 objects: 100 new particles in
    every iteration. *)
Theorem pf_main_cell_outcome (ground_truth_x : seq F) w :
  (ParticleNotebook.num_data < size ground_truth_x)%N ->
  let main_cell :=
    ParticleNotebook.main_cell np_random_normal np_random_normal_scalar
      np_random_uniform np_random_draw np_sqrt ground_truth_x in
  main_cell w = Raise ValueError
  \/ exists ps lg w',
       [/\ main_cell w = Ok ((ps, lg), w'),
           size ps = 1000%N,
           size (heap w') = (size (heap w) + (1000 + 100 * 100))%N,
           size (filtered_xs lg) = 100%N /\ size (filtered_ys lg) = 100%N
         & size (measurements lg) = 100%N
           /\ size (particles_over_time lg) = 100%N].
Proof.
move=> lt_n main_cell.
have a01 : 0 <= ParticleNotebook.alpha F <= 1.
  rewrite /ParticleNotebook.alpha divr_ge0 ?ler0n //=.
  by rewrite ler_pdivrMr ?ltr0n // mul1r ler_nat.
have s0 : 0 <= (5%:R / 10%:R : F) by rewrite divr_ge0 ?ler0n.
have KE : `|Num.floor (1000%:R * ParticleNotebook.alpha F)|%N = 900%N.
  have -> : 1000%:R * ParticleNotebook.alpha F = 900%:R.
    rewrite /ParticleNotebook.alpha -[1000%N]/(100 * 10)%N natrM -mulrA.
    by rewrite [9%:R / _]mulrC mulVKf ?pnatr_eq0 // -natrM.
  by rewrite pmulrn intrKfloor absz_nat.
case: (run_outcome ParticleNotebook.num_particles (ParticleNotebook.u_t F) w
         a01 s0 s0 lt_n) => [fail|].
  by left.
case=> ps [lg [w' [run' [sz ok] hsz [lx ly lm lp]]]].
right; exists ps, lg, w'; split=> //.
by rewrite hsz KE -addnA.
Qed.

End ParticleRunFacts.

(** ** The runs on the concrete instance *)

Section RunExampleFacts.

Import Example RunExample.

Local Notation update := (update Float64.gesv_singular).
Local Notation ex_kalman_run :=
  (KalmanRun.kalman_run ex_normal_scalar Float64.gesv_singular).

Lemma psd_Sigma2 : psd Sigma2.
Proof. by apply: psd_scalar; rewrite divr_ge0 ?ler01 ?ler0n. Qed.

Lemma psd_Q2 : psd Q2.
Proof. by apply: psd_scalar; rewrite divr_ge0 ?ler0n. Qed.

Lemma psd_R2 : psd R2.
Proof. by apply: psd_scalar; rewrite divr_ge0 ?ler0n. Qed.

Lemma unit_R2 : R2 \in unitmx.
Proof. by apply: unit_scalar. Qed.

Lemma unit_residual2 : I2 *m Sigma2 *m I2^T + R2 \in unitmx.
Proof. by rewrite residual_I2 unit_scalar. Qed.

Lemma three_quarters_ge0 : 0 <= (3%:R / 4%:R : rat).
Proof. by rewrite divr_ge0 ?ler0n. Qed.

Lemma predict_psd_witness : psd (predict I2 I2 Q2 mu2 u2 Sigma2).2.
Proof. apply: predict_psd; [exact: psd_Sigma2 | exact: psd_Q2]. Defined.

Lemma update_psd_witness :
  exists mu' Sigma', update I2 R2 z2 mu2 Sigma2 = Ok (mu', Sigma') /\ psd Sigma'.
Proof.
apply: update_psd; [exact: psd_Sigma2 | exact: psd_R2 | exact: unit_residual2].
Defined.


Lemma update_diagonal_witness :
  exists mu',
    update 1%:M (diag_mx r2) z2 mu2 (diag_mx d2)
    = Ok (mu', diag_mx (\row_j (d2 0 j * r2 0 j / (d2 0 j + r2 0 j)))).
Proof.
have ne0 j : d2 0 j + r2 0 j != 0 by rewrite !mxE.
have [mu' [run _]] := update_diagonal Float64.gesv_singular z2 mu2 ne0.
exists mu'; exact: run.
Defined.


Lemma kalman_run_negative_scale_witness :
  ex_kalman_run I2 I2 Q2 I2 R2 (- 1) 1 truth3
    mu2 Sigma2 2 g0 = Raise ValueError.
Proof.
apply: kalman_run_negative_scale; first by [].
by vm_compute.
Defined.

Lemma kalman_run_short_truth_witness :
  ex_kalman_run I2 I2 Q2 I2 R2 (3%:R / 4%:R)
    (3%:R / 4%:R) truth1 mu2 Sigma2 3 g0 = Raise IndexError.
Proof.
apply: kalman_run_short_truth;
  [ exact: psd_Sigma2 | exact: psd_Q2 | exact: psd_R2 | exact: unit_R2
  | exact: three_quarters_ge0 | exact: three_quarters_ge0 | by [] | by [] ].
Defined.

Lemma kalman_covariance_data_free_witness :
  exists st st',
    [/\ ex_kalman_run I2 I2 Q2 I2 R2 (3%:R / 4%:R)
          (3%:R / 4%:R) truth3 mu2 Sigma2 3 g0 = Ok st,
        KalmanRun.kalman_run (fun _ _ g => (1, g)) Float64.gesv_singular I2 0 Q2 I2 R2 0 0 truth11
          u2 Sigma2 3 g0 = Ok st'
      & KalmanRun.Sigma_current st' = KalmanRun.Sigma_current st].
Proof.
have scales : [&& 0 <= (3%:R / 4%:R : rat), 0 <= (3%:R / 4%:R : rat),
                  0 <= (0 : rat) & 0 <= (0 : rat)].
  by vm_compute.
have le3 : (3 <= size truth3)%N by [].
have le3' : (3 <= size truth11)%N by [].
have [st [st' [run run' _ same]]] :=
  @kalman_covariance_data_free _ _ Float64.gesv_singular I2 _ I2 _
    ex_normal_scalar
    (fun _ _ g => (1, g)) I2 0 _ _ _ _ _ _ mu2 u2 _ _ g0 g0
    psd_Sigma2 psd_Q2 psd_R2 unit_R2 scales le3 le3'.
exists st, st'; split; [exact: run | exact: run' | exact: same].
Defined.

Lemma main_cell_completes_witness :
  exists st,
    KalmanRun.KalmanNotebook.main_cell ex_normal_scalar
      Float64.gesv_singular truth11 g0 = Ok st
    /\ size (KalmanRun.filtered_mus st) = 9%N.
Proof.
have le10 : (KalmanRun.KalmanNotebook.num_data <= size truth11)%N by [].
have [st [run sz _ _]] := main_cell_completes ex_normal_scalar Float64.gesv_singular g0 le10.
exists st; split; [exact: run | exact: sz].
Defined.

End RunExampleFacts.

Section ParticleRunExampleFacts.

Import Example RunExample ParticleRun.

Local Notation ex_update_all := (update_all (G:=stream) rat_sqrt).
Local Notation ex_predict_all := (predict_all ex_normal).
Local Notation ex_resample := (resample ex_uniform ex_draw).
Local Notation ex_iteration :=
  (pf_iteration ex_normal ex_normal_scalar ex_uniform ex_draw rat_sqrt).
Local Notation ex_run :=
  (pf_run ex_normal ex_normal_scalar ex_uniform ex_draw rat_sqrt).
Local Notation ps3 := ([:: 0; 1; 2]%N : seq addr).

Lemma aliased_allocated : all (fun a => (a < size (heap w3))%N) aliased.
Proof. by []. Qed.

Lemma ps3_allocated : all (fun a => (a < size (heap w3))%N) ps3.
Proof. by []. Qed.

Lemma nine_tenths : 0 <= (9%:R / 10%:R : rat) <= 1.
Proof. by vm_compute. Qed.

Lemma half_ge0 : 0 <= (1 / 2%:R : rat).
Proof. by vm_compute. Qed.

Lemma w3_valid :
  valid_p 3 (normalized [seq weight (load w3 a) | a <- ps3]).
Proof. by vm_compute. Qed.

Lemma predict_pass_moves_witness :
  exists w',
    ex_predict_all (1, 1) aliased w3 = Ok (tt, w')
    /\ size (moves (1, 1) aliased (normal_draws ex_normal 3 (rng w3)).1 1%N)
       = count_mem 1%N aliased.
Proof.
have [w' [run _ _ _ cnt]] := predict_pass_moves ex_normal (1, 1) aliased_allocated.
exists w'; split; [exact: run | exact: cnt].
Defined.

Lemma update_pass_weights_witness :
  exists w', ex_update_all (0, 0) aliased w3 = Ok (tt, w') /\ rng w' = rng w3.
Proof.
have [w' [run [g _] _ _ _]] :=
  update_pass_weights rat_sqrt (0, 0) aliased_allocated.
exists w'; split; [exact: run | exact: g].
Defined.

Lemma update_pass_idempotent_witness :
  exists w',
    ex_update_all (0, 0) aliased w3 = Ok (tt, w')
    /\ ex_update_all (0, 0) aliased w' = Ok (tt, w').
Proof. exact: (update_pass_idempotent rat_sqrt (0, 0) aliased_allocated). Defined.

Lemma update_resample_succeeds_witness :
  exists ps' w',
    bind (ex_update_all (1, 1) ps3)
         (fun _ => ex_resample 3 (9%:R / 10%:R) ps3) w3 = Ok (ps', w')
    /\ size ps' = 3%N.
Proof.
have sz : size ps3 = 3%N by [].
have n0 : (0 < 3)%N by [].
have far : all (fun a => state (load w3 a) != (1, 1)) ps3 by vm_compute.
have [ps' [w' [run sz' _ _]]] :=
  update_resample_succeeds ex_uniform rat_sqrt0 rat_sqrt_gt0 ex_draw_size
    ex_draw_range ps3_allocated nine_tenths sz n0 far.
exists ps', w'; split; [exact: run | exact: sz'].
Defined.

Lemma update_resample_raises_witness :
  bind (ex_update_all (3%:R, 4%:R) ps3)
       (fun _ => ex_resample 3 (9%:R / 10%:R) ps3) w3 = Raise ValueError.
Proof.
have hit : has (fun a => state (load w3 a) == (3%:R, 4%:R)) ps3 by vm_compute.
exact: (update_resample_raises ex_uniform ex_draw rat_sqrt0 rat_sqrt_gt0 3
          (9%:R / 10%:R) ps3_allocated hit).
Defined.

Lemma estimate_bounds_witness :
  exists mx my,
    estimate 3 (9%:R / 10%:R) ps3 w3 = Ok ((Fin mx, Fin my), w3)
    /\ 0 <= mx <= 6%:R.
Proof.
have big : 1 <= 3%:R * (9%:R / 10%:R : rat) by vm_compute.
have sz : (0 < size ps3)%N by [].
have box : all (fun a => (((0, 0) : rat * rat).1 <= (state (load w3 a)).1
                            <= ((6%:R, 8%:R) : rat * rat).1)
                         && (((0, 0) : rat * rat).2 <= (state (load w3 a)).2
                            <= ((6%:R, 8%:R) : rat * rat).2))
                 (take `|Num.floor (3%:R * (9%:R / 10%:R : rat))| ps3).
  by vm_compute.
have [mx [my [run bx _]]] := estimate_bounds big sz box.
exists mx, my; split; [exact: run | exact: bx].
Defined.

Lemma estimate_no_kept_witness :
  estimate 3 0 ps3 w3 = Ok ((NaN, NaN), w3).
Proof.
have small : `|3%:R * (0 : rat)| < 1 by vm_compute.
exact: (estimate_no_kept ps3 w3 small).
Defined.

Lemma resample_extremes_witness :
  exists w', ex_resample 3 0 ps3 w3 = Ok ([:: 3; 4; 5]%N, w').
Proof.
have sz : size ps3 = 3%N by [].
have [_ run0] :=
  resample_extremes ex_uniform ex_draw_size ex_draw_range sz w3_valid.
eexists; exact: run0.
Defined.

Lemma resample_alpha_above_one_witness :
  ex_resample 3 2%:R ps3 w3 = Raise IndexError.
Proof.
have sz : size ps3 = 3%N by [].
have big : 4%:R <= 3%:R * (2%:R : rat) by vm_compute.
exact: (resample_alpha_above_one ex_uniform ex_draw_size ex_draw_range sz
          w3_valid big).
Defined.

Lemma pf_iteration_outcome_witness :
  let lg := Logs [::] [::] [::] [::] in
  let step :=
    ex_iteration 3 (9%:R / 10%:R) (1, 1) (1 / 2%:R) (1 / 2%:R) truth3 0
      (ps3, lg) w3 in
  step = Raise ValueError
  \/ exists ps' lg' w', step = Ok ((ps', lg'), w') /\ size ps' = 3%N.
Proof.
move=> lg step.
have lt : (1 < size truth3)%N by [].
have sz : size ps3 = 3%N by [].
have [fail|[ps' [lg' [w' [run [sz' _] _ _]]]]] :=
  pf_iteration_outcome ex_normal ex_normal_scalar ex_uniform rat_sqrt
    ex_draw_size ex_draw_range (1, 1) lg nine_tenths half_ge0 half_ge0 lt sz
    ps3_allocated.
  left; exact: fail.
right; exists ps', lg', w'; split; [exact: run | exact: sz'].
Defined.

Lemma pf_run_outcome_witness :
  let run := ex_run 3 (9%:R / 10%:R) (1, 1) (1 / 2%:R) (1 / 2%:R) truth3 2
               w00 in
  run = Raise ValueError
  \/ exists ps lg w', run = Ok ((ps, lg), w') /\ size (filtered_xs lg) = 2%N.
Proof.
move=> run.
have lt : (2 < size truth3)%N by [].
have [fail|[ps [lg [w' [run' _ _ [lx _ _ _]]]]]] :=
  pf_run_outcome ex_normal ex_normal_scalar ex_uniform rat_sqrt
    ex_draw_size ex_draw_range 3 (1, 1) w00 nine_tenths half_ge0 half_ge0 lt.
  left; exact: fail.
right; exists ps, lg, w'; split; [exact: run' | exact: lx].
Defined.

Lemma pf_main_cell_outcome_witness :
  let main_cell :=
    ParticleNotebook.main_cell ex_normal ex_normal_scalar ex_uniform ex_draw
      rat_sqrt truth101 in
  main_cell w00 = Raise ValueError
  \/ exists ps lg w',
       main_cell w00 = Ok ((ps, lg), w') /\ size ps = 1000%N.
Proof.
move=> main_cell.
have lt : (ParticleNotebook.num_data < size truth101)%N by [].
have [fail|[ps [lg [w' [run sz _ _ _]]]]] :=
  pf_main_cell_outcome ex_normal ex_normal_scalar ex_uniform rat_sqrt
    ex_draw_size ex_draw_range w00 lt.
  left; exact: fail.
right; exists ps, lg, w'; split; [exact: run | exact: sz].
Defined.

End ParticleRunExampleFacts.
